(** * bolt_read: page layout, page-id merge, and the unix mmap/flock layer

    A shallow embedding of [page.go] and [bolt_unix.go], with the properties
    of the natural-language specification stated and proved over it. *)

From Stdlib Require Import String Ascii.
From Stdlib Require Import ZArith NArith Arith List Bool Lia.
From Stdlib Require Import Permutation Sorted.
Import ListNotations.

(** ** Outcomes of Go calls that may panic *)

Inductive panic : Type :=
| BadLen (ldst la lb : nat)   (* mergepgids bad len %d < %d + %d *)
| IndexOutOfRange.            (* runtime error: index out of range *)

Inductive outcome (A : Type) : Type :=
| Returns (a : A)
| Panics (p : panic)
| OutOfFuel.

Arguments Returns {A} a.
Arguments Panics {A} p.
Arguments OutOfFuel {A}.

(** ** [sort.Search] of the Go standard library

    [Search(n, f)] keeps the invariant [f(i-1) = false], [f(j) = true] and
    halves [j - i] at each step.  Indices are slice indices, hence naturals;
    [int(uint(i+j) >> 1)] is the floor of the mean. *)

Fixpoint search_loop (fuel : nat) (f : nat -> bool) (i j : nat) : nat :=
  match fuel with
  | O => i
  | S fuel' =>
      if i <? j then
        let h := (i + j) / 2 in
        if negb (f h) then search_loop fuel' f (h + 1) j
        else search_loop fuel' f i h
      else i
  end.

Definition Search (n : nat) (f : nat -> bool) : nat := search_loop n f 0 n.

(** ** Page ids and their merge ([page.go]) *)

Module Pgids.

(** [type pgid uint64]; only compared, never added, so no wrap-around
    arises. *)
Abbreviation pgid := N (only parsing).

(** [type pgids []pgid] *)
Abbreviation pgids := (list N) (only parsing).

(** [copy(dst, src)]: overwrites the first [min(len dst, len src)] cells. *)
Definition copy (dst src : pgids) : pgids :=
  let k := Nat.min (length dst) (length src) in
  firstn k src ++ skipn k dst.

(** The [for len(lead) > 0] loop of [mergepgids].  [merged] is the slice
    [dst[:0]] grown by [append]; [lead] and [follow] are the two fronts. *)
Fixpoint merge_loop (fuel : nat) (merged lead follow : pgids)
  : outcome pgids :=
  match fuel with
  | O => OutOfFuel
  | S fuel' =>
      match lead with
      | [] => Returns (merged ++ follow)
      | _ :: _ =>
          match follow with
          | [] => Panics IndexOutOfRange
          | f0 :: _ =>
              let n := Search (length lead)
                              (fun i => (f0 <? nth i lead 0)%N) in
              let merged' := merged ++ firstn n lead in
              if length lead <=? n then Returns (merged' ++ follow)
              else merge_loop fuel' merged' follow (skipn n lead)
          end
      end
  end.

(** Iterations never exceed twice the number of elements (a step that
    appends nothing is followed by one that appends something). *)
Definition merge_fuel (a b : pgids) : nat := 2 * (length a + length b) + 2.

(** [mergepgids(dst, a, b)]; the result is the content of [dst] afterwards.
    The appends to [merged = dst[:0]] write through to [dst]'s cells, since
    the guard leaves capacity for all of them. *)
Definition mergepgids (dst a b : pgids) : outcome pgids :=
  if length dst <? length a + length b then
    Panics (BadLen (length dst) (length a) (length b))
  else if length a =? 0 then Returns (copy dst b)
  else if length b =? 0 then Returns (copy dst a)
  else
    let '(lead, follow) :=
      if (nth 0 b 0 <? nth 0 a 0)%N then (b, a) else (a, b) in
    match merge_loop (merge_fuel a b) [] lead follow with
    | Returns merged => Returns (merged ++ skipn (length merged) dst)
    | Panics p => Panics p
    | OutOfFuel => OutOfFuel
    end.

(** [make(pgids, n)] *)
Definition make (n : nat) : pgids := repeat 0%N n.

(** [func (a pgids) merge(b pgids) pgids] *)
Definition merge (a b : pgids) : outcome pgids :=
  if length a =? 0 then Returns b
  else if length b =? 0 then Returns a
  else mergepgids (make (length a + length b)) a b.

(** [s[i] = v]; the index is known to be in range where this is used. *)
Fixpoint store (s : pgids) (i : nat) (v : pgid) : pgids :=
  match s, i with
  | [], _ => []
  | _ :: t, O => v :: t
  | x :: t, S k => x :: store t k v
  end.

(** [func (s pgids) Len() int] *)
Definition Len (s : pgids) : nat := length s.

(** [func (s pgids) Swap(i, j int)]: both operands [s[j]], [s[i]] are read
    (an index out of range panics), then [s[i]] and [s[j]] are assigned in
    that order.  The result is the content of [s] afterwards. *)
Definition Swap (s : pgids) (i j : nat) : outcome pgids :=
  match nth_error s j, nth_error s i with
  | Some sj, Some si => Returns (store (store s i sj) j si)
  | _, _ => Panics IndexOutOfRange
  end.

(** [func (s pgids) Less(i, j int) bool] *)
Definition Less (s : pgids) (i j : nat) : outcome bool :=
  match nth_error s i, nth_error s j with
  | Some si, Some sj => Returns (si <? sj)%N
  | _, _ => Panics IndexOutOfRange
  end.

End Pgids.

(** ** Machine integers *)

Local Open Scope Z_scope.

(** Go's signed 64-bit arithmetic ([int] on the 64-bit targets and
    [time.Duration]) wraps around silently. *)
Definition wrap64 (z : Z) : Z := (z + 2 ^ 63) mod 2 ^ 64 - 2 ^ 63.

Definition int64_range (z : Z) : Prop := - 2 ^ 63 <= z < 2 ^ 63.

(** ** Raw memory and the zero-copy slices over it *)

Module Mem.

(** The mapped bytes, by address. *)
Definition mem : Type := Z -> Byte.byte.

(** A computation that reads memory: its value and the addresses it read,
    in order. *)
Definition Rd (A : Type) : Type := mem -> A * list Z.

Definition ret {A : Type} (a : A) : Rd A := fun _ => (a, []).

Definition bind {A B : Type} (c : Rd A) (k : A -> Rd B) : Rd B :=
  fun m => let '(a, r1) := c m in
           let '(b, r2) := k a m in (b, r1 ++ r2).

Definition value_of {A : Type} (c : Rd A) (m : mem) : A := fst (c m).
Definition reads_of {A : Type} (c : Rd A) (m : mem) : list Z := snd (c m).

Definition load8 (a : Z) : Rd Z :=
  fun m => (Z.of_N (Byte.to_N (m a)), [a]).

(** Multi-byte fields are stored in the byte order of the host, which is
    little-endian on the supported 64-bit targets. *)
Definition load16 (a : Z) : Rd Z :=
  bind (load8 a) (fun b0 =>
  bind (load8 (a + 1)) (fun b1 =>
  ret (Z.lor b0 (Z.shiftl b1 8)))).

Definition load32 (a : Z) : Rd Z :=
  bind (load16 a) (fun h0 =>
  bind (load16 (a + 2)) (fun h1 =>
  ret (Z.lor h0 (Z.shiftl h1 16)))).

(** A Go slice header ([reflect.SliceHeader]); [nil] has all fields zero. *)
Record slice : Type := { Data : Z; Len : Z; Cap : Z }.

Definition nil_slice : slice := {| Data := 0; Len := 0; Cap := 0 |}.

(** The bytes a byte slice denotes in memory [m]. *)
Definition slice_bytes (m : mem) (s : slice) : list Byte.byte :=
  map (fun k => m (Data s + Z.of_nat k)) (seq 0 (Z.to_nat (Len s))).

(** Modelled from the spec: [unsafeAdd] of unsafe.go, which is not among the
    sources; the address [offset] bytes after [base]. *)
Definition unsafeAdd (base offset : Z) : Z := base + offset.

(** Modelled from the spec: [unsafeIndex] of unsafe.go, which is not among
    the sources; element arrays are contiguous, so element [n] of size
    [elemsz] lies at [base + offset + n * elemsz]. *)
Definition unsafeIndex (base offset elemsz n : Z) : Z :=
  base + offset + n * elemsz.

(** Modelled from the spec: [unsafeByteSlice] of unsafe.go, which is not
    among the sources; the bytes from index [i] up to, not including, index
    [j], counted from [base + offset]. *)
Definition unsafeByteSlice (base offset i j : Z) : slice :=
  {| Data := unsafeAdd base offset + i; Len := j - i; Cap := j - i |}.

(** Modelled from the spec: [unsafeSlice] of unsafe.go, which is not among
    the sources; it makes the slice variable denote [len] elements starting
    at [data], converting the whole array in one call. *)
Definition unsafeSlice (data len : Z) : slice :=
  {| Data := data; Len := len; Cap := len |}.

End Mem.

(** ** Pages and their elements ([page.go]) *)

Module Page.
Import Mem.

(** [type page struct { id pgid; flags uint16; count uint16; overflow
    uint32 }]: fields at offsets 0, 8, 10 and 12. *)
Definition pageHeaderSize : Z := 16.

(** [type branchPageElement struct { pos, ksize uint32; pgid pgid }] *)
Definition branchPageElementSize : Z := 16.

(** [type leafPageElement struct { flags, pos, ksize, vsize uint32 }]:
    fields at offsets 0, 4, 8 and 12. *)
Definition leafPageElementSize : Z := 16.

Definition branchPageFlag : Z := 0x01.
Definition leafPageFlag : Z := 0x02.
Definition metaPageFlag : Z := 0x04.
Definition freelistPageFlag : Z := 0x10.

Definition page_flags (p : Z) : Rd Z := load16 (p + 8).
Definition page_count (p : Z) : Rd Z := load16 (p + 10).

Definition leaf_pos (n : Z) : Rd Z := load32 (n + 4).
Definition leaf_ksize (n : Z) : Rd Z := load32 (n + 8).
Definition leaf_vsize (n : Z) : Rd Z := load32 (n + 12).

Definition branch_pos (n : Z) : Rd Z := load32 n.
Definition branch_ksize (n : Z) : Rd Z := load32 (n + 4).

(** *** [fmt.Sprintf("%02x", v)]: lowercase hexadecimal, at least two
    digits, padded with zeros. *)

Definition hex_digit (d : Z) : ascii :=
  nth (Z.to_nat d) (list_ascii_of_string "0123456789abcdef") "0"%char.

Fixpoint hex_digits (fuel : nat) (n : Z) (acc : string) : string :=
  match fuel with
  | O => acc
  | S fuel' =>
      let acc' := String (hex_digit (n mod 16)) acc in
      if n / 16 =? 0 then acc' else hex_digits fuel' (n / 16) acc'
  end.

(** Sixteen digits cover every 64-bit value. *)
Definition fmt_x (n : Z) : string := hex_digits 16 n EmptyString.

Definition fmt_02x (n : Z) : string :=
  let s := fmt_x n in
  if (String.length s <? 2)%nat then ("0" ++ s)%string else s.

(** Reading a hexadecimal numeral back. *)
Definition hex_value (c : ascii) : option Z :=
  let k := Z.of_N (N_of_ascii c) in
  if (48 <=? k) && (k <=? 57) then Some (k - 48)
  else if (97 <=? k) && (k <=? 102) then Some (k - 87)
  else None.

Fixpoint parse_hex_from (acc : Z) (s : string) : option Z :=
  match s with
  | EmptyString => Some acc
  | String c s' =>
      match hex_value c with
      | Some d => parse_hex_from (16 * acc + d) s'
      | None => None
      end
  end.

Definition parse_hex (s : string) : option Z :=
  match s with
  | EmptyString => None
  | _ => parse_hex_from 0 s
  end.

(** [func (p *page) typ() string] *)
Definition typ (p : Z) : Rd string :=
  bind (page_flags p) (fun f1 =>
  if negb (Z.land f1 branchPageFlag =? 0) then ret "branch"%string else
  bind (page_flags p) (fun f2 =>
  if negb (Z.land f2 leafPageFlag =? 0) then ret "leaf"%string else
  bind (page_flags p) (fun f3 =>
  if negb (Z.land f3 metaPageFlag =? 0) then ret "meta"%string else
  bind (page_flags p) (fun f4 =>
  if negb (Z.land f4 freelistPageFlag =? 0) then ret "freelist"%string else
  bind (page_flags p) (fun f5 =>
  ret ("unknown<" ++ fmt_02x f5 ++ ">")%string))))).

(** [func (p *page) meta() *meta] *)
Definition meta (p : Z) : Z := unsafeAdd p pageHeaderSize.

(** [func (p *page) leafPageElement(index uint16) *leafPageElement] *)
Definition leafPageElement (p index : Z) : Z :=
  unsafeIndex p pageHeaderSize leafPageElementSize index.

(** [func (p *page) leafPageElements() []leafPageElement] *)
Definition leafPageElements (p : Z) : Rd slice :=
  bind (page_count p) (fun c =>
  if c =? 0 then ret nil_slice
  else
    let data := unsafeAdd p pageHeaderSize in
    bind (page_count p) (fun c' => ret (unsafeSlice data c'))).

(** [func (p *page) branchPageElement(index uint16) *branchPageElement] *)
Definition branchPageElement (p index : Z) : Z :=
  unsafeIndex p pageHeaderSize branchPageElementSize index.

(** [func (p *page) branchPageElements() []branchPageElement] *)
Definition branchPageElements (p : Z) : Rd slice :=
  bind (page_count p) (fun c =>
  if c =? 0 then ret nil_slice
  else
    let data := unsafeAdd p pageHeaderSize in
    bind (page_count p) (fun c' => ret (unsafeSlice data c'))).

(** [func (n *branchPageElement) key() []byte] *)
Definition branch_key (n : Z) : Rd slice :=
  bind (branch_pos n) (fun pos =>
  bind (branch_pos n) (fun pos' =>
  bind (branch_ksize n) (fun ksize =>
  ret (unsafeByteSlice n 0 pos (wrap64 (pos' + ksize)))))).

(** [func (n *leafPageElement) key() []byte] *)
Definition key (n : Z) : Rd slice :=
  bind (leaf_pos n) (fun pos =>
  let i := pos in
  bind (leaf_ksize n) (fun ksize =>
  let j := wrap64 (i + ksize) in
  ret (unsafeByteSlice n 0 i j))).

(** [func (n *leafPageElement) value() []byte] *)
Definition value (n : Z) : Rd slice :=
  bind (leaf_pos n) (fun pos =>
  bind (leaf_ksize n) (fun ksize =>
  let i := wrap64 (pos + ksize) in
  bind (leaf_vsize n) (fun vsize =>
  let j := wrap64 (i + vsize) in
  ret (unsafeByteSlice n 0 i j)))).

End Page.

(** ** The unix layer ([bolt_unix.go]) *)

Module Unix.
Import Mem.

(** [syscall.Errno] is a [uintptr]; zero means that the call succeeded.
    The constants are those of package [syscall] on linux. *)
Definition Errno : Type := Z.

Definition EWOULDBLOCK : Errno := 11.
Definition EINVAL : Errno := 22.
Definition ENOSYS : Errno := 38.

Definition LOCK_SH : Z := 1.
Definition LOCK_EX : Z := 2.
Definition LOCK_NB : Z := 4.
Definition LOCK_UN : Z := 8.

Definition PROT_READ : Z := 1.
Definition MAP_SHARED : Z := 1.
Definition MADV_RANDOM : Z := 1.

(** Go [error] values that these functions produce; [nil] is [None] of
    [option error]. *)
Inductive error : Type :=
| SysErr (e : Errno)                      (* a syscall.Errno *)
| ErrTimeout                              (* the sentinel of errors.go *)
| Errorf (format : string) (arg : error). (* fmt.Errorf(format, arg) *)

Fixpoint error_eqb (x y : error) : bool :=
  match x, y with
  | SysErr a, SysErr b => a =? b
  | ErrTimeout, ErrTimeout => true
  | Errorf f a, Errorf g b => String.eqb f g && error_eqb a b
  | _, _ => false
  end.

(** [err != v] on a possibly nil error. *)
Definition err_neq (err : option error) (v : error) : bool :=
  match err with
  | None => true
  | Some e => negb (error_eqb e v)
  end.

(** The wrappers of package [syscall] turn a non-zero errno into an error. *)
Definition errno_err (e1 : Errno) : option error :=
  if e1 =? 0 then None else Some (SysErr e1).

(** What a call does to the outside world, in order. *)
Inductive event : Type :=
| EvNow                                  (* time.Now() *)
| EvSince                                (* time.Since(t) *)
| EvSleep (d : Z)                        (* time.Sleep(d) *)
| EvFlock (fd how : Z)                   (* flock(2) *)
| EvMmap (fd offset length prot flags : Z)
| EvMadvise (addr length advice : Z)
| EvMunmap (addr length : Z).

(** The fields of [DB] that this file uses. *)
Record DB : Type := {
  file_fd : Z;               (* db.file.Fd() *)
  MmapFlags : Z;
  dataref : option slice;    (* the mmap'ed byte slice, nil when unmapped *)
  data : option Z;           (* *[maxMapSize]byte, nil when unmapped *)
  datasz : Z
}.

Definition set_mapping (db : DB) (ref : option slice) (p : option Z)
  (sz : Z) : DB :=
  {| file_fd := file_fd db; MmapFlags := MmapFlags db;
     dataref := ref; data := p; datasz := sz |}.

(** One turn of the lock loop as the environment answers it: the errno of
    [syscall.Flock] and what [time.Since(t)] reads if it is consulted. *)
Record attempt : Type := { att_errno : Errno; att_since : Z }.

Section Flock.

(** [flockRetryTimeout] is declared in db.go, which is not among the
    sources; it is a [time.Duration], in nanoseconds. *)
Variable flockRetryTimeout : Z.

(** The [for] loop of [flock].  The script lists the answers to the
    successive attempts; when it is used up the call is still waiting. *)
Fixpoint flock_loop (fd flag timeout : Z) (script : list attempt)
  : outcome (option error) * list event :=
  match script with
  | [] => (OutOfFuel, [])
  | a :: rest =>
      let err := errno_err (att_errno a) in
      match err with
      | None => (Returns None, [EvFlock fd flag])
      | Some e =>
          if negb (error_eqb e (SysErr EWOULDBLOCK)) then
            (Returns err, [EvFlock fd flag])
          else if negb (timeout =? 0) then
            if att_since a >? wrap64 (timeout - flockRetryTimeout) then
              (Returns (Some ErrTimeout), [EvFlock fd flag; EvSince])
            else
              let '(r, tr) := flock_loop fd flag timeout rest in
              (r, EvFlock fd flag :: EvSince
                    :: EvSleep flockRetryTimeout :: tr)
          else
            let '(r, tr) := flock_loop fd flag timeout rest in
            (r, EvFlock fd flag :: EvSleep flockRetryTimeout :: tr)
      end
  end.

(** [func flock(db *DB, exclusive bool, timeout time.Duration) error] *)
Definition flock (db : DB) (exclusive : bool) (timeout : Z)
  (script : list attempt) : outcome (option error) * list event :=
  let start := if negb (timeout =? 0) then [EvNow] else [] in
  let fd := file_fd db in
  let flag := LOCK_NB in
  let flag := if exclusive then Z.lor flag LOCK_EX else Z.lor flag LOCK_SH in
  let '(r, tr) := flock_loop fd flag timeout script in
  (r, start ++ tr).

End Flock.

(** [func funlock(db *DB) error]; [e1] is the errno of the system call. *)
Definition funlock (db : DB) (e1 : Errno) : option error * list event :=
  (errno_err e1, [EvFlock (file_fd db) LOCK_UN]).

(** [syscall.Mmap]: the wrapper refuses a length that is not positive
    before it reaches the kernel, whose answer is [addr] and [e1]. *)
Definition syscall_Mmap (fd offset length prot flags : Z) (addr : Z)
  (e1 : Errno) : (slice * option error) * list event :=
  if length <=? 0 then ((nil_slice, Some (SysErr EINVAL)), [])
  else
    let ev := [EvMmap fd offset length prot flags] in
    if e1 =? 0
    then (({| Data := addr; Len := length; Cap := length |}, None), ev)
    else ((nil_slice, Some (SysErr e1)), ev).

(** [func madvise(b []byte, advice int) (err error)]; [&b[0]] panics on an
    empty slice. *)
Definition madvise (b : slice) (advice : Z) (e1 : Errno)
  : outcome (option error) * list event :=
  if Len b <=? 0 then (Panics IndexOutOfRange, [])
  else
    (Returns (if negb (e1 =? 0) then Some (SysErr e1) else None),
     [EvMadvise (Data b) (Len b) advice]).

(** The kernel's answers to the system calls of one [mmap]. *)
Record mmap_answers : Type := {
  ans_addr : Z; ans_mmap : Errno; ans_madvise : Errno
}.

(** [func mmap(db *DB, sz int) error] *)
Definition mmap (db : DB) (sz : Z) (k : mmap_answers)
  : outcome (DB * option error) * list event :=
  let '((b, err), tr1) :=
    syscall_Mmap (file_fd db) 0 sz PROT_READ
                 (Z.lor MAP_SHARED (MmapFlags db))
                 (ans_addr k) (ans_mmap k) in
  match err with
  | Some e => (Returns (db, Some e), tr1)
  | None =>
      match madvise b MADV_RANDOM (ans_madvise k) with
      | (Returns (Some e'), tr2) =>
          if negb (error_eqb e' (SysErr ENOSYS)) then
            (Returns (db, Some (Errorf "madvise: %s" e')), tr1 ++ tr2)
          else
            (Returns (set_mapping db (Some b) (Some (Data b)) sz, None),
             tr1 ++ tr2)
      | (Returns None, tr2) =>
          (Returns (set_mapping db (Some b) (Some (Data b)) sz, None),
           tr1 ++ tr2)
      | (Panics p, tr2) => (Panics p, tr1 ++ tr2)
      | (OutOfFuel, tr2) => (OutOfFuel, tr1 ++ tr2)
      end
  end.

(** [func munmap(db *DB) error]; [e1] is the errno of [syscall.Munmap]. *)
Definition munmap (db : DB) (e1 : Errno) : (DB * option error) * list event :=
  match dataref db with
  | None => ((db, None), [])
  | Some b =>
      let err := errno_err e1 in
      ((set_mapping db None None 0, err), [EvMunmap (Data b) (Len b)])
  end.

End Unix.

(** ** Vocabulary of the statements *)

(** Ascending order of page ids, duplicates allowed. *)
Definition ascending (l : list N) : Prop := Sorted N.le l.

(** The loop of [mergepgids] ends because this quantity decreases: twice
    the number of elements left, plus one when the lead starts above the
    follow (then the next search appends nothing and only swaps). *)
Definition ahead (lead follow : list N) : nat :=
  match lead, follow with
  | x :: _, y :: _ => if (y <? x)%N then 1%nat else 0%nat
  | _, _ => 0%nat
  end.

Definition merge_measure (lead follow : list N) : nat :=
  (2 * (length lead + length follow) + ahead lead follow)%nat.

(** The bytes of memory [m] at the [n] addresses from [a] on. *)
Definition bytes_at (m : Mem.mem) (a n : Z) : list Byte.byte :=
  map (fun k => m (a + Z.of_nat k)) (seq 0 (Z.to_nat n)).

(** Address [a] lies in the header of the page at [p]. *)
Definition in_header (p a : Z) : Prop := p <= a < p + Page.pageHeaderSize.

(** The names [typ] gives to the four page types. *)
Definition type_names : list string :=
  ["branch"; "leaf"; "meta"; "freelist"]%string.

(** A memory that holds [v] at address [a] and zero elsewhere. *)
Definition one_byte (a : Z) (v : Byte.byte) : Mem.mem :=
  fun x => if x =? a then v else Byte.x00.

(** The lock mode bits that [flock] passes to the system call. *)
Definition lock_flag (exclusive : bool) : Z :=
  if exclusive then Z.lor Unix.LOCK_NB Unix.LOCK_EX
  else Z.lor Unix.LOCK_NB Unix.LOCK_SH.

(** What the lock loop does for one contended attempt after which it goes
    on waiting, under a deadline. *)
Definition timed_retry (retry fd flag : Z) : list Unix.event :=
  [Unix.EvFlock fd flag; Unix.EvSince; Unix.EvSleep retry].

(** The lock call gives up at the first contended attempt after which less
    than one retry interval of the timeout is left: up to there every
    attempt is followed by a check of the elapsed time and a sleep, and the
    last one by the check alone. *)
Definition times_out_at_budget (retry timeout : Z) : Prop :=
  forall (db : Unix.DB) (exclusive : bool)
         (pre : list Unix.attempt) (a : Unix.attempt)
         (post : list Unix.attempt),
    Forall (fun x => Unix.att_errno x = Unix.EWOULDBLOCK
                     /\ retry <= timeout - Unix.att_since x) pre ->
    Unix.att_errno a = Unix.EWOULDBLOCK ->
    timeout - Unix.att_since a < retry ->
    Unix.flock retry db exclusive timeout (pre ++ a :: post)
    = (Returns (Some Unix.ErrTimeout),
       Unix.EvNow
       :: flat_map (fun _ => timed_retry retry (Unix.file_fd db)
                                         (lock_flag exclusive)) pre
       ++ [Unix.EvFlock (Unix.file_fd db) (lock_flag exclusive);
           Unix.EvSince]).

(** [syscall.Mmap] returned a nil error. *)
Definition Mmap_succeeds (db : Unix.DB) (sz : Z) (k : Unix.mmap_answers)
  : Prop :=
  snd (fst (Unix.syscall_Mmap (Unix.file_fd db) 0 sz Unix.PROT_READ
              (Z.lor Unix.MAP_SHARED (Unix.MmapFlags db))
              (Unix.ans_addr k) (Unix.ans_mmap k))) = None.

(** The handle holds no mapping. *)
Definition unmapped (db : Unix.DB) : Prop :=
  Unix.dataref db = None /\ Unix.data db = None /\ Unix.datasz db = 0.

(** Two handles on descriptor 3 for the examples: one without a mapping,
    one that maps 32768 bytes at address 4096. *)
Definition closed_db : Unix.DB :=
  {| Unix.file_fd := 3; Unix.MmapFlags := 0; Unix.dataref := None;
     Unix.data := None; Unix.datasz := 0 |}.

Definition mapped_db : Unix.DB :=
  {| Unix.file_fd := 3; Unix.MmapFlags := 0;
     Unix.dataref := Some {| Mem.Data := 4096; Mem.Len := 32768;
                             Mem.Cap := 32768 |};
     Unix.data := Some 4096; Unix.datasz := 32768 |}.

(** An event of the lock loop that is a non-blocking lock request on
    descriptor [fd] in the mode asked for, a reading of the clock, or a
    sleep of one retry interval; nothing else. *)
Definition lock_event (retry fd : Z) (exclusive : bool) (ev : Unix.event)
  : Prop :=
  match ev with
  | Unix.EvFlock fd' how =>
      fd' = fd
      /\ how = (if exclusive then 6 else 5)
      /\ Z.land how Unix.LOCK_NB = Unix.LOCK_NB
  | Unix.EvSleep d => d = retry
  | Unix.EvNow | Unix.EvSince => True
  | _ => False
  end.

(** The clock readings of a script are those of a clock that has not gone
    back since [prev] and that every sleep advances by at least the retry
    interval. *)
Fixpoint ticking (retry prev : Z) (script : list Unix.attempt) : Prop :=
  match script with
  | [] => True
  | a :: rest =>
      prev <= Unix.att_since a
      /\ ticking retry (Unix.att_since a + retry) rest
  end.

(** No event of the trace unmaps memory. *)
Definition never_unmaps (tr : list Unix.event) : Prop :=
  Forall (fun ev => match ev with Unix.EvMunmap _ _ => False | _ => True end)
         tr.

(** Address [a] lies in the 16 bytes of the element at [n]. *)
Definition in_element (n a : Z) : Prop :=
  n <= a < n + Page.leafPageElementSize.

(** * Properties *)

Local Open Scope nat_scope.

(** ** Binary search *)

Lemma search_loop_spec (f : nat -> bool) :
  forall fuel i j, i <= j -> j - i <= fuel ->
    let r := search_loop fuel f i j in
    i <= r <= j /\ (r = i \/ f (r - 1) = false) /\ (r = j \/ f r = true).
Proof.
  induction fuel as [|fuel IH]; intros i j Hij Hfuel; cbn [search_loop].
  - assert (i = j) by lia. subst. repeat split; auto.
  - destruct (i <? j) eqn:Hlt.
    + apply Nat.ltb_lt in Hlt.
      assert (Hh : i <= (i + j) / 2 < j).
      { split.
        - apply Nat.div_le_lower_bound; lia.
        - apply Nat.Div0.div_lt_upper_bound; lia. }
      destruct (f ((i + j) / 2)) eqn:Hf; cbn [negb].
      * destruct (IH i ((i + j) / 2)) as (Hr & Hlo & Hhi); try lia.
        split; [lia|]. split; [exact Hlo|].
        right. destruct Hhi as [Hhi|Hhi]; [rewrite Hhi; exact Hf | exact Hhi].
      * destruct (IH ((i + j) / 2 + 1) j) as (Hr & Hlo & Hhi); try lia.
        split; [lia|]. split; [|exact Hhi].
        right. destruct Hlo as [Hlo|Hlo]; [|exact Hlo].
        rewrite Hlo. replace ((i + j) / 2 + 1 - 1) with ((i + j) / 2)
          by lia. exact Hf.
    + apply Nat.ltb_ge in Hlt. assert (i = j) by lia. subst.
      repeat split; auto.
Qed.

Lemma Search_spec (n : nat) (f : nat -> bool) :
  Search n f <= n
  /\ (Search n f = 0 \/ f (Search n f - 1) = false)
  /\ (Search n f = n \/ f (Search n f) = true).
Proof.
  unfold Search.
  destruct (search_loop_spec f n 0 n) as (Hr & Hlo & Hhi); try lia.
  repeat split; try lia; auto.
Qed.

(** ** Sorted lists *)

Lemma StronglySorted_app_iff {A : Type} (R : A -> A -> Prop) (l1 l2 : list A) :
  StronglySorted R (l1 ++ l2) <->
  StronglySorted R l1 /\ StronglySorted R l2
  /\ (forall a b, In a l1 -> In b l2 -> R a b).
Proof.
  induction l1 as [|x l1 IH]; simpl.
  - split.
    + intros H. repeat split; [constructor | exact H | intros a b []].
    + intros (_ & H & _). exact H.
  - split.
    + intros H. apply StronglySorted_inv in H. destruct H as [H Hx].
      apply IH in H. destruct H as (H1 & H2 & H12).
      rewrite Forall_app in Hx. destruct Hx as [Hx1 Hx2].
      repeat split; [constructor; assumption | assumption |].
      intros a b [->|Ha] Hb.
      * rewrite Forall_forall in Hx2. now apply Hx2.
      * now apply H12.
    + intros (H1 & H2 & H12).
      apply StronglySorted_inv in H1. destruct H1 as [H1 Hx].
      constructor.
      * apply IH. repeat split; auto.
      * rewrite Forall_app. split; [assumption|].
        rewrite Forall_forall. intros b Hb. apply H12; auto.
Qed.

Lemma ascending_strong (l : list N) :
  ascending l <-> StronglySorted N.le l.
Proof.
  split.
  - apply Sorted_StronglySorted. intros x y z. apply N.le_trans.
  - apply StronglySorted_Sorted.
Qed.

Lemma sorted_nth_le (l : list N) :
  StronglySorted N.le l ->
  forall i j, i <= j -> j < length l -> (nth i l 0 <= nth j l 0)%N.
Proof.
  induction 1 as [|x l Hl IH Hx]; intros i j Hij Hj; simpl in Hj.
  - lia.
  - destruct j as [|j].
    + assert (i = 0) by lia. subst. simpl. apply N.le_refl.
    + destruct i as [|i]; simpl.
      * rewrite Forall_forall in Hx. apply Hx. apply nth_In. lia.
      * apply IH; lia.
Qed.

Lemma firstn_below (l : list N) (n : nat) (v : N) :
  StronglySorted N.le l -> 0 < n <= length l ->
  (nth (n - 1) l 0 <= v)%N ->
  forall a, In a (firstn n l) -> (a <= v)%N.
Proof.
  intros Hs Hn Hv a Ha.
  destruct (In_nth _ _ 0%N Ha) as (k & Hk & <-).
  rewrite length_firstn in Hk.
  rewrite nth_firstn.
  replace (k <? n) with true by (symmetry; apply Nat.ltb_lt; lia).
  apply N.le_trans with (nth (n - 1) l 0%N); [|exact Hv].
  apply sorted_nth_le; auto; lia.
Qed.

(** ** The merge loop *)

Lemma head_le_all (f0 : N) (l : list N) :
  StronglySorted N.le (f0 :: l) -> forall b, In b (f0 :: l) -> (f0 <= b)%N.
Proof.
  intros H b Hb. apply StronglySorted_inv in H. destruct H as [_ H].
  destruct Hb as [<-|Hb]; [apply N.le_refl|].
  rewrite Forall_forall in H. now apply H.
Qed.

Lemma merge_loop_correct :
  forall fuel merged lead follow,
    lead <> [] -> follow <> [] ->
    merge_measure lead follow < fuel ->
    exists r,
      Pgids.merge_loop fuel merged lead follow = Returns (merged ++ r)
      /\ Permutation r (lead ++ follow)
      /\ (StronglySorted N.le lead -> StronglySorted N.le follow ->
          StronglySorted N.le r).
Proof.
  induction fuel as [|fuel IH]; intros merged lead follow Hl Hf Hm; [lia|].
  destruct lead as [|x lead']; [congruence|].
  destruct follow as [|f0 follow']; [congruence|].
  cbn [Pgids.merge_loop].
  remember (x :: lead') as lead eqn:Elead.
  remember (f0 :: follow') as follow eqn:Efollow.
  destruct (Search_spec (length lead) (fun i => (f0 <? nth i lead 0)%N))
    as (Hn & Hlo & Hhi).
  remember (Search (length lead) (fun i => (f0 <? nth i lead 0)%N)) as n
    eqn:En.
  assert (Hlen : 0 < length lead) by (subst lead; simpl; lia).
  assert (Hlo' : n = 0 \/ (nth (n - 1) lead 0 <= f0)%N).
  { destruct Hlo as [Hlo|Hlo]; [now left|right]. now apply N.ltb_ge. }
  assert (Hhi' : n = length lead \/ (f0 < nth n lead 0)%N).
  { destruct Hhi as [Hhi|Hhi]; [now left|right]. now apply N.ltb_lt. }
  clear Hlo Hhi.
  destruct (length lead <=? n) eqn:Hdone.
  - (* the whole lead is at or below follow[0] *)
    apply Nat.leb_le in Hdone. assert (n = length lead) by lia.
    rewrite firstn_all2 by lia.
    exists (lead ++ follow). split; [now rewrite app_assoc|].
    split; [reflexivity|].
    intros Sl Sf. apply StronglySorted_app_iff.
    split; [assumption|]. split; [assumption|].
    intros a b Ha Hb.
    apply N.le_trans with f0.
    + apply (firstn_below lead n f0);
        [assumption | lia | destruct Hlo' as [?|?]; [lia|assumption]
        | rewrite firstn_all2 by lia; assumption].
    + subst follow. apply (head_le_all f0 follow'); assumption.
  - (* swap: follow leads, the rest of lead follows *)
    apply Nat.leb_gt in Hdone.
    assert (Hrest : skipn n lead <> []).
    { intros E. apply (f_equal (@length N)) in E. rewrite length_skipn in E.
      simpl in E. lia. }
    assert (Hf' : follow <> []) by (subst follow; discriminate).
    destruct (IH (merged ++ firstn n lead) follow (skipn n lead) Hf' Hrest)
      as (r & Hr & Hperm & Hsorted).
    { unfold merge_measure in *. rewrite length_skipn.
      destruct (Nat.eq_dec n 0) as [Hz|Hnz].
      - destruct Hhi' as [?|Hhi']; [lia|].
        rewrite Hz in *. cbn [skipn].
        subst lead follow. cbn [nth ahead length] in *.
        apply N.ltb_lt in Hhi'. rewrite Hhi' in Hm.
        replace (x <? f0)%N with false
          by (symmetry; apply N.ltb_ge; apply N.ltb_lt in Hhi'; lia).
        lia.
      - assert (ahead follow (skipn n lead) <= 1).
        { unfold ahead. destruct follow; [lia|].
          destruct (skipn n lead); [lia|]. destruct (_ <? _)%N; lia. }
        lia. }
    exists (firstn n lead ++ r). split; [rewrite Hr; now rewrite app_assoc|].
    split.
    + rewrite Hperm. rewrite <- (firstn_skipn n lead) at 3.
      rewrite <- app_assoc. apply Permutation_app_head.
      apply Permutation_app_comm.
    + intros Sl Sf.
      rewrite <- (firstn_skipn n lead) in Sl.
      apply StronglySorted_app_iff in Sl. destruct Sl as (S1 & S2 & S12).
      apply StronglySorted_app_iff.
      split; [assumption|]. split; [now apply Hsorted|].
      intros a b Ha Hb.
      apply (Permutation_in _ Hperm) in Hb. apply in_app_or in Hb.
      destruct Hb as [Hb|Hb]; [|now apply S12].
      apply N.le_trans with f0.
      * destruct (Nat.eq_dec n 0) as [Hz|Hnz].
        { rewrite Hz in Ha. destruct Ha. }
        apply (firstn_below lead n f0);
          [ rewrite <- (firstn_skipn n lead);
            apply StronglySorted_app_iff; auto
          | lia | destruct Hlo' as [?|?]; [lia|assumption] | assumption ].
      * subst follow. apply (head_le_all f0 follow'); assumption.
Qed.

(** ** [mergepgids] and [merge] *)

Lemma copy_fits (dst src : list N) :
  length src <= length dst ->
  Pgids.copy dst src = src ++ skipn (length src) dst.
Proof.
  intros H. unfold Pgids.copy.
  rewrite Nat.min_r by exact H. now rewrite firstn_all.
Qed.

Lemma ahead_le_1 (lead follow : list N) : ahead lead follow <= 1.
Proof.
  unfold ahead. destruct lead; [lia|]. destruct follow; [lia|].
  destruct (_ <? _)%N; lia.
Qed.

Lemma mergepgids_uniform (a b : list N) :
  exists m,
    Permutation m (a ++ b)
    /\ (ascending a -> ascending b -> ascending m)
    /\ forall dst, length a + length b <= length dst ->
         Pgids.mergepgids dst a b
         = Returns (m ++ skipn (length a + length b) dst).
Proof.
  unfold Pgids.mergepgids.
  destruct a as [|x a'].
  - exists b. repeat split; auto. intros dst Hfit.
    replace (length dst <? length [] + length b) with false
      by (symmetry; apply Nat.ltb_ge; exact Hfit).
    cbn [length Nat.eqb]. rewrite copy_fits by (simpl in Hfit; lia).
    reflexivity.
  - destruct b as [|y b'].
    + exists (x :: a'). rewrite app_nil_r. repeat split; auto.
      intros dst Hfit.
      replace (length dst <? length (x :: a') + length []) with false
        by (symmetry; apply Nat.ltb_ge; exact Hfit).
      cbn [length Nat.eqb]. rewrite copy_fits by (simpl in *; lia).
      now rewrite Nat.add_0_r.
    + remember (x :: a') as a eqn:Ea. remember (y :: b') as b eqn:Eb.
      assert (Ha : a <> []) by (subst a; discriminate).
      assert (Hb : b <> []) by (subst b; discriminate).
      replace (length a =? 0) with false
        by (symmetry; apply Nat.eqb_neq; subst a; discriminate).
      replace (length b =? 0) with false
        by (symmetry; apply Nat.eqb_neq; subst b; discriminate).
      destruct (nth 0 b 0 <? nth 0 a 0)%N; cbv beta iota.
      * destruct (merge_loop_correct (Pgids.merge_fuel a b) [] b a Hb Ha)
          as (r & Hr & Hperm & Hsorted).
        { unfold merge_measure, Pgids.merge_fuel.
          pose proof (ahead_le_1 b a). lia. }
        rewrite Hr. cbn [app]. exists r.
        split; [rewrite Hperm; apply Permutation_app_comm|].
        split.
        -- intros Sa Sb. apply ascending_strong.
           apply Hsorted; now apply ascending_strong.
        -- intros dst Hfit.
           replace (length dst <? length a + length b) with false
             by (symmetry; apply Nat.ltb_ge; exact Hfit).
           rewrite (Permutation_length Hperm), length_app.
           now rewrite (Nat.add_comm (length b)).
      * destruct (merge_loop_correct (Pgids.merge_fuel a b) [] a b Ha Hb)
          as (r & Hr & Hperm & Hsorted).
        { unfold merge_measure, Pgids.merge_fuel.
          pose proof (ahead_le_1 a b). lia. }
        rewrite Hr. cbn [app]. exists r.
        split; [exact Hperm|]. split.
        -- intros Sa Sb. apply ascending_strong.
           apply Hsorted; now apply ascending_strong.
        -- intros dst Hfit.
           replace (length dst <? length a + length b) with false
             by (symmetry; apply Nat.ltb_ge; exact Hfit).
           now rewrite (Permutation_length Hperm), length_app.
Qed.

Lemma mergepgids_fits (dst a b : list N) :
  length a + length b <= length dst ->
  exists m,
    Pgids.mergepgids dst a b = Returns (m ++ skipn (length a + length b) dst)
    /\ Permutation m (a ++ b)
    /\ (ascending a -> ascending b -> ascending m).
Proof.
  intros Hfit. destruct (mergepgids_uniform a b) as (m & Hp & Hs & Hm).
  exists m. split; [now apply Hm|]. split; assumption.
Qed.

Lemma make_length (n : nat) : length (Pgids.make n) = n.
Proof. unfold Pgids.make. apply repeat_length. Qed.

Lemma merge_is_mergepgids (a b : list N) :
  exists c,
    Pgids.merge a b = Returns c
    /\ Permutation c (a ++ b)
    /\ (ascending a -> ascending b -> ascending c)
    /\ forall dst, length a + length b <= length dst ->
         Pgids.mergepgids dst a b
         = Returns (c ++ skipn (length a + length b) dst).
Proof.
  unfold Pgids.merge.
  destruct a as [|x a'].
  - exists b. repeat split; auto. intros dst Hfit.
    unfold Pgids.mergepgids.
    replace (length dst <? length [] + length b) with false
      by (symmetry; apply Nat.ltb_ge; exact Hfit).
    cbn [length Nat.eqb]. rewrite copy_fits by (simpl in Hfit; lia).
    reflexivity.
  - destruct b as [|y b'].
    + exists (x :: a'). rewrite app_nil_r. repeat split; auto.
      intros dst Hfit. unfold Pgids.mergepgids.
      replace (length dst <? length (x :: a') + length []) with false
        by (symmetry; apply Nat.ltb_ge; exact Hfit).
      cbn [length Nat.eqb]. rewrite copy_fits by (simpl in *; lia).
      now rewrite Nat.add_0_r.
    + destruct (mergepgids_uniform (x :: a') (y :: b'))
        as (m & Hp & Hs & Hm).
      exists m. split; [|auto].
      change (length (x :: a') =? 0) with false.
      change (length (y :: b') =? 0) with false. cbv iota.
      rewrite (Hm (Pgids.make (length (x :: a') + length (y :: b'))))
        by (rewrite make_length; lia).
      rewrite skipn_all2 by (rewrite make_length; lia).
      now rewrite app_nil_r.
Qed.

(** C1. For ascending [a] and [b], [merge] returns an ascending sequence
    that is a permutation of [a ++ b] (the multiset union, duplicates kept);
    and [merge a [] = a], [merge [] b = b]. *)
Theorem merge_sorted_union (a b : list N) :
  ascending a -> ascending b ->
  (exists c, Pgids.merge a b = Returns c
             /\ ascending c /\ Permutation c (a ++ b))
  /\ Pgids.merge a [] = Returns a
  /\ Pgids.merge [] b = Returns b.
Proof.
  intros Sa Sb. split; [|split].
  - unfold Pgids.merge.
    destruct a as [|x a']; [exists b; auto|].
    destruct b as [|y b'].
    + exists (x :: a'). rewrite app_nil_r. auto.
    + cbn [length Nat.eqb].
      destruct (mergepgids_fits
                  (Pgids.make (length (x :: a') + length (y :: b')))
                  (x :: a') (y :: b')) as (m & Hm & Hperm & Hsorted).
      { unfold Pgids.make. rewrite repeat_length. lia. }
      exists m. split; [|split; auto].
      cbn [length] in Hm. rewrite Hm.
      rewrite skipn_all2, app_nil_r; [reflexivity|].
      unfold Pgids.make. rewrite repeat_length. lia.
  - unfold Pgids.merge. destruct a; reflexivity.
  - reflexivity.
Qed.

Lemma merge_sorted_union_witness :
  ascending [1; 5; 5; 9]%N /\ ascending [2; 5; 12]%N
  /\ (exists c, Pgids.merge [1; 5; 5; 9]%N [2; 5; 12]%N = Returns c
                /\ ascending c
                /\ Permutation c ([1; 5; 5; 9] ++ [2; 5; 12])%N).
Proof.
  assert (Ha : ascending [1; 5; 5; 9]%N)
    by (unfold ascending; repeat constructor; lia).
  assert (Hb : ascending [2; 5; 12]%N)
    by (unfold ascending; repeat constructor; lia).
  split; [exact Ha|]. split; [exact Hb|].
  exact (proj1 (merge_sorted_union _ _ Ha Hb)).
Defined.

(** C4. [mergepgids] panics when [dst] is shorter than [len a + len b];
    otherwise it returns, having written the whole union into [dst] and
    left the cells beyond it untouched. *)
Theorem mergepgids_bad_len (dst a b : list N) :
  (length dst < length a + length b ->
   Pgids.mergepgids dst a b
   = Panics (BadLen (length dst) (length a) (length b)))
  /\ (length a + length b <= length dst ->
      exists m,
        Pgids.mergepgids dst a b
        = Returns (m ++ skipn (length a + length b) dst)
        /\ Permutation m (a ++ b)).
Proof.
  split.
  - intros H. unfold Pgids.mergepgids.
    apply Nat.ltb_lt in H. now rewrite H.
  - intros H. destruct (mergepgids_fits dst a b H) as (m & Hm & Hp & _).
    exists m. auto.
Qed.

Lemma mergepgids_bad_len_witness :
  (Pgids.mergepgids [0; 0]%N [4; 1]%N [3]%N = Panics (BadLen 2 2 1))
  /\ (exists m, Pgids.mergepgids [7; 7; 7; 7]%N [4; 1]%N [3]%N
                = Returns (m ++ skipn 3 [7; 7; 7; 7]%N)
                /\ Permutation m ([4; 1] ++ [3])%N).
Proof.
  split.
  - apply (proj1 (mergepgids_bad_len [0; 0]%N [4; 1]%N [3]%N)).
    simpl. lia.
  - apply (proj2 (mergepgids_bad_len [7; 7; 7; 7]%N [4; 1]%N [3]%N)).
    simpl. lia.
Defined.

(** ** Reading memory *)

Local Open Scope Z_scope.

Section Reads.
Import Mem.

Lemma value_bind {A B : Type} (c : Rd A) (k : A -> Rd B) (m : mem) :
  value_of (bind c k) m = value_of (k (value_of c m)) m.
Proof.
  unfold value_of, bind. destruct (c m) as [a r1]. simpl.
  destruct (k a m) as [b r2]. reflexivity.
Qed.

Lemma reads_bind {A B : Type} (c : Rd A) (k : A -> Rd B) (m : mem) :
  reads_of (bind c k) m = reads_of c m ++ reads_of (k (value_of c m)) m.
Proof.
  unfold reads_of, value_of, bind. destruct (c m) as [a r1]. simpl.
  destruct (k a m) as [b r2]. reflexivity.
Qed.

Lemma value_ret {A : Type} (a : A) (m : mem) : value_of (ret a) m = a.
Proof. reflexivity. Qed.

Lemma reads_ret {A : Type} (a : A) (m : mem) : reads_of (ret a) m = [].
Proof. reflexivity. Qed.

Lemma reads_load8 (a : Z) (m : mem) : reads_of (load8 a) m = [a].
Proof. reflexivity. Qed.

Lemma reads_load16 (a : Z) (m : mem) : reads_of (load16 a) m = [a; a + 1].
Proof.
  unfold load16. now rewrite !reads_bind, !reads_load8, reads_ret.
Qed.

Lemma reads_load32 (a : Z) (m : mem) :
  reads_of (load32 a) m = [a; a + 1; a + 2; a + 2 + 1].
Proof.
  unfold load32. now rewrite !reads_bind, !reads_load16, reads_ret.
Qed.

Lemma lor_range (n a b : Z) :
  0 <= n -> 0 <= a < 2 ^ n -> 0 <= b < 2 ^ n -> 0 <= Z.lor a b < 2 ^ n.
Proof.
  intros Hn Ha Hb. split; [apply Z.lor_nonneg; lia|].
  destruct (Z.eq_dec (Z.lor a b) 0) as [E|E].
  - rewrite E. apply Z.pow_pos_nonneg; lia.
  - assert (0 < Z.lor a b) by (pose proof (Z.lor_nonneg a b); lia).
    assert (0 < n).
    { destruct (Z.eq_dec n 0) as [->|]; [|lia].
      assert (a = 0) by lia. assert (b = 0) by lia. subst. now elim E. }
    apply Z.log2_lt_pow2; [assumption|].
    rewrite Z.log2_lor by lia.
    apply Z.max_lub_lt.
    + destruct (Z.eq_dec a 0) as [->|]; [simpl; lia|].
      apply Z.log2_lt_pow2; lia.
    + destruct (Z.eq_dec b 0) as [->|]; [simpl; lia|].
      apply Z.log2_lt_pow2; lia.
Qed.

Lemma load8_range (a : Z) (m : mem) : 0 <= value_of (load8 a) m < 2 ^ 8.
Proof.
  unfold value_of, load8. simpl fst.
  pose proof (Byte.to_N_bounded (m a)). lia.
Qed.

Lemma load16_range (a : Z) (m : mem) : 0 <= value_of (load16 a) m < 2 ^ 16.
Proof.
  unfold load16. rewrite !value_bind, value_ret.
  pose proof (load8_range a m). pose proof (load8_range (a + 1) m).
  apply lor_range; [lia | lia |].
  rewrite Z.shiftl_mul_pow2 by lia. lia.
Qed.

Lemma load32_range (a : Z) (m : mem) : 0 <= value_of (load32 a) m < 2 ^ 32.
Proof.
  unfold load32. rewrite !value_bind, value_ret.
  pose proof (load16_range a m). pose proof (load16_range (a + 2) m).
  apply lor_range; [lia | lia |].
  rewrite Z.shiftl_mul_pow2 by lia. lia.
Qed.

Lemma wrap64_small (z : Z) : - 2 ^ 63 <= z < 2 ^ 63 -> wrap64 z = z.
Proof.
  intros H. unfold wrap64. rewrite Z.mod_small by lia. lia.
Qed.

End Reads.

(** ** Pages *)

Section Pages.
Import Mem Page.

Lemma slice_bytes_at (m : mem) (a n : Z) :
  slice_bytes m {| Data := a; Len := n; Cap := n |} = bytes_at m a n.
Proof. reflexivity. Qed.

Lemma bytes_at_length (m : mem) (a n : Z) :
  0 <= n -> Z.of_nat (length (bytes_at m a n)) = n.
Proof.
  intros H. unfold bytes_at. rewrite length_map, length_seq. lia.
Qed.

(** C3. [key] is the [ksize] bytes that start [pos] bytes after the
    element; [value] is the [vsize] bytes right after the key. *)
Theorem leaf_key_value_ranges (m : mem) (n : Z) :
  let pos := value_of (leaf_pos n) m in
  let ksize := value_of (leaf_ksize n) m in
  let vsize := value_of (leaf_vsize n) m in
  let k := value_of (key n) m in
  let v := value_of (value n) m in
  Data k = n + pos /\ Len k = ksize
  /\ slice_bytes m k = bytes_at m (n + pos) ksize
  /\ Z.of_nat (length (slice_bytes m k)) = ksize
  /\ Data v = Data k + Len k /\ Len v = vsize
  /\ slice_bytes m v = bytes_at m (n + pos + ksize) vsize
  /\ Z.of_nat (length (slice_bytes m v)) = vsize.
Proof.
  intros pos ksize vsize k v.
  pose proof (load32_range (n + 4) m) as Hp.
  pose proof (load32_range (n + 8) m) as Hk.
  pose proof (load32_range (n + 12) m) as Hv.
  fold (leaf_pos n) in Hp. fold (leaf_ksize n) in Hk.
  fold (leaf_vsize n) in Hv. fold pos in Hp. fold ksize in Hk.
  fold vsize in Hv.
  assert (Ek : k = {| Data := n + pos; Len := ksize; Cap := ksize |}).
  { unfold k, key. rewrite !value_bind, value_ret. fold pos ksize.
    rewrite wrap64_small by lia. unfold unsafeByteSlice, unsafeAdd.
    f_equal; lia. }
  assert (Ev : v = {| Data := n + pos + ksize; Len := vsize; Cap := vsize |}).
  { unfold v, value. rewrite !value_bind, value_ret. fold pos ksize vsize.
    rewrite !wrap64_small by (try rewrite wrap64_small; lia).
    unfold unsafeByteSlice, unsafeAdd. f_equal; lia. }
  rewrite Ek, Ev. cbn [Data Len]. rewrite !slice_bytes_at.
  rewrite !bytes_at_length by lia. repeat split; reflexivity.
Qed.

(** C5. On a page whose [count] is zero both enumerations return the nil
    slice, which has no elements, and every byte they read lies in the
    page header. *)
Theorem elements_of_empty_page (m : mem) (p : Z) :
  value_of (page_count p) m = 0 ->
  (value_of (leafPageElements p) m = nil_slice
   /\ Len (value_of (leafPageElements p) m) = 0
   /\ Forall (in_header p) (reads_of (leafPageElements p) m))
  /\ (value_of (branchPageElements p) m = nil_slice
      /\ Len (value_of (branchPageElements p) m) = 0
      /\ Forall (in_header p) (reads_of (branchPageElements p) m)).
Proof.
  intros Hc.
  assert (Hreads : Forall (in_header p) (reads_of (page_count p) m ++ [])).
  { unfold page_count. rewrite reads_load16, app_nil_r.
    unfold in_header, pageHeaderSize. repeat constructor; lia. }
  split.
  - unfold leafPageElements. rewrite value_bind, reads_bind, Hc.
    cbn [Z.eqb]. rewrite value_ret, reads_ret. auto.
  - unfold branchPageElements. rewrite value_bind, reads_bind, Hc.
    cbn [Z.eqb]. rewrite value_ret, reads_ret. auto.
Qed.

Lemma elements_of_empty_page_witness :
  value_of (page_count 4096) (one_byte 4096 Byte.x07) = 0
  /\ value_of (leafPageElements 4096) (one_byte 4096 Byte.x07) = nil_slice
  /\ value_of (branchPageElements 4096) (one_byte 4096 Byte.x07) = nil_slice.
Proof.
  assert (H : value_of (page_count 4096) (one_byte 4096 Byte.x07) = 0)
    by reflexivity.
  split; [exact H|]. split.
  - exact (proj1 (proj1 (elements_of_empty_page _ _ H))).
  - exact (proj1 (proj2 (elements_of_empty_page _ _ H))).
Defined.

End Pages.

(** ** [typ] *)

Section Typ.
Import Mem Page.

Lemma hex_value_digit (d : Z) :
  0 <= d < 16 -> hex_value (hex_digit d) = Some d.
Proof.
  intros H.
  assert (E : d = 0 \/ d = 1 \/ d = 2 \/ d = 3 \/ d = 4 \/ d = 5 \/ d = 6
              \/ d = 7 \/ d = 8 \/ d = 9 \/ d = 10 \/ d = 11 \/ d = 12
              \/ d = 13 \/ d = 14 \/ d = 15) by lia.
  repeat (destruct E as [->|E]; [reflexivity|]). subst. reflexivity.
Qed.

Lemma parse_hex_digits (fuel : nat) :
  forall n, 0 <= n < 16 ^ Z.of_nat fuel ->
    exists k, 0 <= k /\
      forall a s, parse_hex_from a (hex_digits fuel n s)
                  = parse_hex_from (a * 16 ^ k + n) s.
Proof.
  induction fuel as [|fuel IH]; intros n Hn.
  - exists 0. split; [lia|]. intros a s. cbn [hex_digits].
    change (16 ^ Z.of_nat 0) with 1 in Hn. f_equal. lia.
  - cbn [hex_digits].
    assert (Hd : 0 <= n mod 16 < 16) by (apply Z.mod_pos_bound; lia).
    destruct (n / 16 =? 0) eqn:Hq.
    + apply Z.eqb_eq in Hq. exists 1. split; [lia|]. intros a s.
      cbn [parse_hex_from]. rewrite (hex_value_digit _ Hd).
      f_equal. pose proof (Z.div_mod n 16 ltac:(lia)). lia.
    + apply Z.eqb_neq in Hq.
      destruct (IH (n / 16)) as (k & Hk & Hparse).
      { rewrite Nat2Z.inj_succ, Z.pow_succ_r in Hn by lia.
        split; [apply Z.div_pos; lia|].
        apply Z.div_lt_upper_bound; lia. }
      exists (k + 1). split; [lia|]. intros a s.
      rewrite Hparse. cbn [parse_hex_from].
      rewrite (hex_value_digit _ Hd). f_equal.
      rewrite Z.pow_add_r, Z.pow_1_r by lia.
      pose proof (Z.div_mod n 16 ltac:(lia)). lia.
Qed.

Lemma hex_nonempty (fuel : nat) (n : Z) (s : string) :
  hex_digits (S fuel) n s <> EmptyString.
Proof.
  revert n s. induction fuel as [|fuel IH]; intros n s; cbn [hex_digits].
  - destruct (n / 16 =? 0); discriminate.
  - destruct (n / 16 =? 0); [discriminate|]. apply IH.
Qed.

Lemma hex_roundtrips_uint16 (f : Z) :
  0 <= f < 2 ^ 16 -> parse_hex (fmt_02x f) = Some f.
Proof.
  intros H. unfold fmt_02x, fmt_x.
  destruct (parse_hex_digits 16 f) as (k & Hk & Hparse);
    [change (16 ^ Z.of_nat 16) with (2 ^ 64); lia|].
  pose proof (hex_nonempty 15 f EmptyString) as Hne.
  specialize (Hparse 0 EmptyString). cbn [parse_hex_from] in Hparse.
  rewrite Z.mul_0_l, Z.add_0_l in Hparse.
  destruct (String.length (hex_digits 16 f "") <? 2)%nat.
  - cbn [append parse_hex parse_hex_from].
    change (hex_value "0") with (Some 0). cbn [Z.mul Z.add]. exact Hparse.
  - unfold parse_hex. destruct (hex_digits 16 f "") eqn:E;
      [now elim Hne|exact Hparse].
Qed.

Lemma typ_cases (m : mem) (p : Z) :
  let f := value_of (page_flags p) m in
  value_of (typ p) m =
  if negb (Z.land f branchPageFlag =? 0) then "branch"%string
  else if negb (Z.land f leafPageFlag =? 0) then "leaf"%string
  else if negb (Z.land f metaPageFlag =? 0) then "meta"%string
  else if negb (Z.land f freelistPageFlag =? 0) then "freelist"%string
  else ("unknown<" ++ fmt_02x f ++ ">")%string.
Proof.
  intros f. unfold typ. rewrite value_bind. fold f.
  destruct (negb (Z.land f branchPageFlag =? 0)); [reflexivity|].
  rewrite value_bind. fold f.
  destruct (negb (Z.land f leafPageFlag =? 0)); [reflexivity|].
  rewrite value_bind. fold f.
  destruct (negb (Z.land f metaPageFlag =? 0)); [reflexivity|].
  rewrite value_bind. fold f.
  destruct (negb (Z.land f freelistPageFlag =? 0)); [reflexivity|].
  rewrite value_bind. fold f. reflexivity.
Qed.

(** C8, as the code has it.  [typ] names the lowest type bit that is set,
    whatever other bits are set with it: so flags 0x01, 0x02, 0x04 and 0x10
    give "branch", "leaf", "meta" and "freelist".  Only when none of the
    four type bits is set does it return "unknown<..>", holding the flags
    in lowercase hexadecimal, which reads back as the flags and is none of
    the four names. *)
Theorem typ_names_lowest_type_bit (m : mem) (p : Z) :
  let f := value_of (page_flags p) m in
  let t := value_of (typ p) m in
  (f = 0x01 -> t = "branch"%string)
  /\ (f = 0x02 -> t = "leaf"%string)
  /\ (f = 0x04 -> t = "meta"%string)
  /\ (f = 0x10 -> t = "freelist"%string)
  /\ (Z.land f 0x01 <> 0 -> t = "branch"%string)
  /\ (Z.land f 0x01 = 0 -> Z.land f 0x02 <> 0 -> t = "leaf"%string)
  /\ (Z.land f 0x01 = 0 -> Z.land f 0x02 = 0 -> Z.land f 0x04 <> 0 ->
      t = "meta"%string)
  /\ (Z.land f 0x01 = 0 -> Z.land f 0x02 = 0 -> Z.land f 0x04 = 0 ->
      Z.land f 0x10 <> 0 -> t = "freelist"%string)
  /\ (Z.land f 0x01 = 0 -> Z.land f 0x02 = 0 -> Z.land f 0x04 = 0 ->
      Z.land f 0x10 = 0 ->
      t = ("unknown<" ++ fmt_02x f ++ ">")%string
      /\ parse_hex (fmt_02x f) = Some f
      /\ ~ In t type_names).
Proof.
  intros f t. pose proof (typ_cases m p) as Ht. fold f t in Ht.
  unfold branchPageFlag, leafPageFlag, metaPageFlag, freelistPageFlag in Ht.
  repeat split.
  - intros E. rewrite Ht, E. reflexivity.
  - intros E. rewrite Ht, E. reflexivity.
  - intros E. rewrite Ht, E. reflexivity.
  - intros E. rewrite Ht, E. reflexivity.
  - intros H1. apply Z.eqb_neq in H1. now rewrite Ht, H1.
  - intros H1 H2. apply Z.eqb_neq in H2. now rewrite Ht, H1, H2.
  - intros H1 H2 H3. apply Z.eqb_neq in H3. now rewrite Ht, H1, H2, H3.
  - intros H1 H2 H3 H4. apply Z.eqb_neq in H4.
    now rewrite Ht, H1, H2, H3, H4.
  - rewrite Ht, H, H0, H1, H2. reflexivity.
  - apply hex_roundtrips_uint16. apply load16_range.
  - rewrite Ht, H, H0, H1, H2. cbn [Z.eqb negb].
    unfold type_names. intros [E|[E|[E|[E|[]]]]]; discriminate E.
Qed.

Lemma typ_names_lowest_type_bit_witness :
  value_of (typ 0) (one_byte 8 Byte.x01) = "branch"%string
  /\ value_of (typ 0) (one_byte 8 Byte.x10) = "freelist"%string
  /\ value_of (typ 0) (one_byte 8 Byte.x23) = "branch"%string
  /\ value_of (typ 0) (one_byte 9 Byte.x01) = "unknown<100>"%string
  /\ value_of (typ 0) (one_byte 8 Byte.x08) = "unknown<08>"%string.
Proof.
  split; [|split; [|split; [|split]]].
  - apply (proj1 (typ_names_lowest_type_bit (one_byte 8 Byte.x01) 0)).
    reflexivity.
  - apply (proj1 (proj2 (proj2 (proj2
             (typ_names_lowest_type_bit (one_byte 8 Byte.x10) 0))))).
    reflexivity.
  - apply (proj1 (proj2 (proj2 (proj2 (proj2
             (typ_names_lowest_type_bit (one_byte 8 Byte.x23) 0)))))).
    vm_compute. discriminate.
  - apply (proj2 (proj2 (proj2 (proj2 (proj2 (proj2 (proj2 (proj2
             (typ_names_lowest_type_bit (one_byte 9 Byte.x01) 0)))))))));
      reflexivity.
  - apply (proj2 (proj2 (proj2 (proj2 (proj2 (proj2 (proj2 (proj2
             (typ_names_lowest_type_bit (one_byte 8 Byte.x08) 0)))))))));
      reflexivity.
Defined.

(** C8 as stated fails: flags 0x03 is none of the four single-bit
    patterns, yet [typ] answers "branch", not an unknown string. *)
Lemma typ_two_type_bits_counterexample :
  ~ (forall (m : mem) (p : Z),
       let f := value_of (page_flags p) m in
       f <> 0x01 -> f <> 0x02 -> f <> 0x04 -> f <> 0x10 ->
       ~ In (value_of (typ p) m) type_names).
Proof.
  intros H.
  apply (H (one_byte 8 Byte.x03) 0); try (vm_compute; discriminate).
  vm_compute. left. reflexivity.
Qed.

End Typ.

(** ** Locking *)

Section Locking.
Import Unix.

Variable retry : Z.

Lemma flock_loop_waiting (fd flag timeout : Z) (pre rest : list attempt) :
  fst (flock_loop retry fd flag timeout pre) = OutOfFuel ->
  flock_loop retry fd flag timeout (pre ++ rest)
  = (fst (flock_loop retry fd flag timeout rest),
     snd (flock_loop retry fd flag timeout pre)
     ++ snd (flock_loop retry fd flag timeout rest)).
Proof.
  induction pre as [|x pre IH]; intros Hw.
  - cbn [app flock_loop snd]. now destruct (flock_loop _ _ _ _ rest).
  - cbn [app flock_loop] in *.
    destruct (errno_err (att_errno x)) as [e|]; [|discriminate Hw].
    destruct (negb (error_eqb e (SysErr EWOULDBLOCK))); [discriminate Hw|].
    destruct (negb (timeout =? 0)).
    + destruct (att_since x >? wrap64 (timeout - retry));
        [discriminate Hw|].
      destruct (flock_loop retry fd flag timeout pre) as [r tr] eqn:E.
      cbn [fst snd] in *. rewrite (IH Hw). reflexivity.
    + destruct (flock_loop retry fd flag timeout pre) as [r tr] eqn:E.
      cbn [fst snd] in *. rewrite (IH Hw). reflexivity.
Qed.

Lemma flock_waiting (db : DB) (excl : bool) (timeout : Z)
  (pre rest : list attempt) :
  fst (flock retry db excl timeout pre) = OutOfFuel ->
  flock retry db excl timeout (pre ++ rest)
  = (fst (flock_loop retry (file_fd db) (lock_flag excl) timeout rest),
     snd (flock retry db excl timeout pre)
     ++ snd (flock_loop retry (file_fd db) (lock_flag excl) timeout rest)).
Proof.
  unfold flock. fold (lock_flag excl). intros Hw.
  destruct (flock_loop retry (file_fd db) (lock_flag excl) timeout pre)
    as [r tr] eqn:E.
  cbn [fst] in Hw. subst r.
  rewrite flock_loop_waiting by (now rewrite E).
  rewrite E. cbn [fst snd]. now rewrite app_assoc.
Qed.

(** C9. While the call is still waiting after the attempts [pre], an
    attempt that fails with an errno other than EWOULDBLOCK ends it: that
    error is returned, and the failed attempt is the last thing the call
    does, with no sleep and no further attempt after it. *)
Theorem flock_other_error_immediate (db : DB) (excl : bool) (timeout : Z)
  (pre : list attempt) (a : attempt) (post : list attempt) :
  fst (flock retry db excl timeout pre) = OutOfFuel ->
  att_errno a <> 0 -> att_errno a <> EWOULDBLOCK ->
  flock retry db excl timeout (pre ++ a :: post)
  = (Returns (Some (SysErr (att_errno a))),
     snd (flock retry db excl timeout pre)
     ++ [EvFlock (file_fd db) (lock_flag excl)]).
Proof.
  intros Hw H0 Hne. rewrite flock_waiting by exact Hw.
  cbn [flock_loop]. unfold errno_err.
  apply Z.eqb_neq in H0. rewrite H0. cbn [error_eqb].
  apply Z.eqb_neq in Hne. rewrite Hne. reflexivity.
Qed.

End Locking.

Lemma flock_other_error_immediate_witness :
  Unix.flock 50000000 closed_db true 0
    ({| Unix.att_errno := 11; Unix.att_since := 0 |}
       :: {| Unix.att_errno := 9; Unix.att_since := 0 |}
       :: {| Unix.att_errno := 0; Unix.att_since := 0 |} :: nil)
  = (Returns (Some (Unix.SysErr 9)),
     [Unix.EvFlock 3 6; Unix.EvSleep 50000000; Unix.EvFlock 3 6]).
Proof.
  apply (flock_other_error_immediate 50000000 closed_db true 0
           [{| Unix.att_errno := 11; Unix.att_since := 0 |}]
           {| Unix.att_errno := 9; Unix.att_since := 0 |}
           [{| Unix.att_errno := 0; Unix.att_since := 0 |}]).
  - reflexivity.
  - simpl. lia.
  - unfold Unix.EWOULDBLOCK. simpl. lia.
Defined.

(** ** The lock deadline *)

Section Deadline.
Import Unix.

Lemma flock_loop_times_out (retry fd flag timeout : Z)
  (pre : list attempt) (a : attempt) (post : list attempt) :
  timeout <> 0 -> int64_range (timeout - retry) ->
  Forall (fun x => att_errno x = EWOULDBLOCK
                   /\ retry <= timeout - att_since x) pre ->
  att_errno a = EWOULDBLOCK ->
  timeout - att_since a < retry ->
  flock_loop retry fd flag timeout (pre ++ a :: post)
  = (Returns (Some ErrTimeout),
     flat_map (fun _ => timed_retry retry fd flag) pre
     ++ [EvFlock fd flag; EvSince]).
Proof.
  intros Ht Hr Hpre Ha Hlate.
  apply Z.eqb_neq in Ht.
  induction Hpre as [|x pre [Hx Hbudget] _ IH].
  - cbn [app flock_loop flat_map]. rewrite Ha. cbn.
    rewrite Ht. cbn [negb].
    rewrite wrap64_small by exact Hr.
    replace (att_since a >? timeout - retry) with true
      by (symmetry; rewrite Z.gtb_ltb; apply Z.ltb_lt; lia).
    reflexivity.
  - cbn [app flock_loop flat_map]. rewrite Hx. cbn.
    rewrite Ht. cbn [negb].
    rewrite wrap64_small by exact Hr.
    replace (att_since x >? timeout - retry) with false
      by (symmetry; rewrite Z.gtb_ltb; apply Z.ltb_ge; lia).
    rewrite IH. reflexivity.
Qed.

(** X24. Where the code computes the deadline exactly, that is whenever
    [timeout - flockRetryTimeout] is itself a 64-bit duration (every
    positive timeout, the retry interval being positive), a call with a
    non-zero timeout whose attempts all meet EWOULDBLOCK checks the elapsed
    time before each sleep and returns [ErrTimeout], without sleeping, at
    the first check that finds less than one retry interval left. *)
Theorem flock_times_out_at_budget (retry timeout : Z) :
  timeout <> 0 -> int64_range (timeout - retry) ->
  times_out_at_budget retry timeout.
Proof.
  intros Ht Hr db excl pre a post Hpre Ha Hlate.
  unfold flock. fold (lock_flag excl).
  rewrite (flock_loop_times_out retry (file_fd db) (lock_flag excl) timeout
             pre a post Ht Hr Hpre Ha Hlate).
  apply Z.eqb_neq in Ht. rewrite Ht. reflexivity.
Qed.

End Deadline.

Lemma flock_times_out_at_budget_witness :
  Unix.flock 50 closed_db true 120
    ({| Unix.att_errno := 11; Unix.att_since := 1 |}
       :: {| Unix.att_errno := 11; Unix.att_since := 52 |}
       :: {| Unix.att_errno := 11; Unix.att_since := 103 |}
       :: {| Unix.att_errno := 0; Unix.att_since := 154 |} :: nil)
  = (Returns (Some Unix.ErrTimeout),
     [Unix.EvNow;
      Unix.EvFlock 3 6; Unix.EvSince; Unix.EvSleep 50;
      Unix.EvFlock 3 6; Unix.EvSince; Unix.EvSleep 50;
      Unix.EvFlock 3 6; Unix.EvSince]).
Proof.
  assert (Ht : 120 <> 0) by lia.
  assert (Hr : int64_range (120 - 50)) by (unfold int64_range; lia).
  apply (flock_times_out_at_budget 50 120 Ht Hr closed_db true
           [{| Unix.att_errno := 11; Unix.att_since := 1 |};
            {| Unix.att_errno := 11; Unix.att_since := 52 |}]
           {| Unix.att_errno := 11; Unix.att_since := 103 |}
           [{| Unix.att_errno := 0; Unix.att_since := 154 |}]).
  - repeat constructor; simpl; lia.
  - reflexivity.
  - simpl. lia.
Defined.

(** C2 as stated fails where the subtraction wraps around: with the
    smallest 64-bit timeout nothing is left of the budget, yet the call
    sleeps and is still waiting after the attempt. *)
Lemma flock_timeout_wraps_counterexample :
  ~ (forall retry timeout : Z,
       0 < retry -> int64_range retry -> int64_range timeout ->
       timeout <> 0 -> times_out_at_budget retry timeout).
Proof.
  intros H.
  assert (Hr : int64_range 50000000) by (unfold int64_range; lia).
  assert (Ht : int64_range (- 2 ^ 63)) by (unfold int64_range; lia).
  assert (Hnz : - 2 ^ 63 <> 0) by lia.
  specialize (H 50000000 (- 2 ^ 63) ltac:(lia) Hr Ht Hnz
                closed_db true []
                {| Unix.att_errno := Unix.EWOULDBLOCK;
                   Unix.att_since := 0 |}
                []
                (Forall_nil _) eq_refl).
  cbn [Unix.att_since] in H.
  specialize (H ltac:(lia)).
  vm_compute in H. discriminate H.
Qed.

(** ** The deadline test when the subtraction wraps *)

Section DeadlineWraps.
Import Unix.

Lemma wrap64_below (z : Z) :
  - 2 ^ 64 <= z < - 2 ^ 63 -> wrap64 z = z + 2 ^ 64.
Proof.
  intros H. unfold wrap64.
  rewrite <- (Z.mod_unique_pos (z + 2 ^ 63) (2 ^ 64) (-1)
                (z + 2 ^ 63 + 2 ^ 64)); lia.
Qed.

Lemma flock_loop_wrapped (retry fd flag timeout : Z) (script : list attempt) :
  0 < retry -> int64_range retry -> int64_range timeout ->
  timeout - retry < - 2 ^ 63 ->
  Forall (fun x => att_errno x = EWOULDBLOCK
                   /\ - 2 ^ 63 <= att_since x <= 2 ^ 63 - retry) script ->
  flock_loop retry fd flag timeout script
  = (OutOfFuel, flat_map (fun _ => timed_retry retry fd flag) script).
Proof.
  intros Hretry Hr Ht Hwrap Hall.
  assert (Hnz : (timeout =? 0) = false)
    by (apply Z.eqb_neq; unfold int64_range in *; lia).
  assert (Hw : wrap64 (timeout - retry) = timeout - retry + 2 ^ 64)
    by (apply wrap64_below; unfold int64_range in *; lia).
  induction Hall as [|x script [Hx Hsince] _ IH].
  - reflexivity.
  - cbn [flock_loop flat_map]. rewrite Hx. cbn.
    rewrite Hnz. cbn [negb]. rewrite Hw.
    replace (att_since x >? timeout - retry + 2 ^ 64) with false
      by (symmetry; rewrite Z.gtb_ltb; apply Z.ltb_ge;
          unfold int64_range in *; lia).
    rewrite IH. reflexivity.
Qed.

(** C2, the defect.  The deadline test compares the elapsed time with
    [timeout - flockRetryTimeout] computed in 64-bit arithmetic.  For a
    timeout so low that this subtraction wraps around, the test never
    fires: although at every check less than one retry interval of the
    budget is left, the call never returns [ErrTimeout]; it sleeps after
    every contended attempt and goes on waiting. *)
Theorem flock_wrapped_deadline_never_fires (retry timeout : Z) (db : DB)
  (excl : bool) (script : list attempt) :
  0 < retry -> int64_range retry -> int64_range timeout ->
  timeout - retry < - 2 ^ 63 ->
  Forall (fun x => att_errno x = EWOULDBLOCK
                   /\ - 2 ^ 63 <= att_since x <= 2 ^ 63 - retry) script ->
  timeout <> 0
  /\ Forall (fun x => timeout - att_since x < retry) script
  /\ flock retry db excl timeout script
     = (OutOfFuel,
        EvNow :: flat_map (fun _ => timed_retry retry (file_fd db)
                                                (lock_flag excl)) script).
Proof.
  intros Hretry Hr Ht Hwrap Hall.
  assert (Hnz : timeout <> 0) by (unfold int64_range in *; lia).
  split; [exact Hnz|]. split.
  - eapply Forall_impl; [|exact Hall]. cbv beta. intros x [_ Hx]. lia.
  - unfold flock. fold (lock_flag excl).
    rewrite (flock_loop_wrapped retry (file_fd db) (lock_flag excl) timeout
               script Hretry Hr Ht Hwrap Hall).
    apply Z.eqb_neq in Hnz. rewrite Hnz. reflexivity.
Qed.

End DeadlineWraps.

Lemma flock_wrapped_deadline_never_fires_witness :
  - 2 ^ 63 - 0 < 50000000
  /\ Unix.flock 50000000 closed_db true (- 2 ^ 63)
       ({| Unix.att_errno := 11; Unix.att_since := 0 |}
          :: {| Unix.att_errno := 11; Unix.att_since := 50000000 |} :: nil)
     = (OutOfFuel,
        [Unix.EvNow;
         Unix.EvFlock 3 6; Unix.EvSince; Unix.EvSleep 50000000;
         Unix.EvFlock 3 6; Unix.EvSince; Unix.EvSleep 50000000]).
Proof.
  destruct (flock_wrapped_deadline_never_fires 50000000 (- 2 ^ 63)
              closed_db true
              [{| Unix.att_errno := 11; Unix.att_since := 0 |};
               {| Unix.att_errno := 11; Unix.att_since := 50000000 |}])
    as (_ & Hleft & Hrun).
  - lia.
  - unfold int64_range. lia.
  - unfold int64_range. lia.
  - lia.
  - repeat constructor; simpl; lia.
  - split; [|exact Hrun].
    apply Forall_inv in Hleft. exact Hleft.
Defined.

(** ** Mapping and unmapping *)

Section Mapping.
Import Mem Unix.

Lemma munmap_unmapped (db : DB) (e1 : Errno) :
  dataref db = None -> munmap db e1 = ((db, None), []).
Proof. intros H. unfold munmap. now rewrite H. Qed.

(** C6. Unmapping a handle that holds no mapping does nothing and
    succeeds; after a successful unmap of a mapped handle the buffer, the
    pointer and the size are cleared, and unmapping again does nothing and
    succeeds, whatever the system would have answered. *)
Theorem munmap_twice (db : DB) (b : slice) :
  (forall db0 e1, dataref db0 = None -> munmap db0 e1 = ((db0, None), []))
  /\ (dataref db = Some b ->
      let db' := fst (fst (munmap db 0)) in
      snd (fst (munmap db 0)) = None
      /\ unmapped db'
      /\ forall e2, munmap db' e2 = ((db', None), [])).
Proof.
  split; [intros db0 e1; apply munmap_unmapped|].
  intros Hm db'. unfold db', munmap. rewrite Hm. cbn.
  repeat split; reflexivity.
Qed.

Lemma munmap_twice_witness :
  snd (fst (munmap mapped_db 0)) = None
  /\ unmapped (fst (fst (munmap mapped_db 0)))
  /\ forall e2, munmap (fst (fst (munmap mapped_db 0))) e2
                = ((fst (fst (munmap mapped_db 0)), None), []).
Proof.
  apply (proj2 (munmap_twice mapped_db {| Data := 4096; Len := 32768;
                                          Cap := 32768 |})).
  reflexivity.
Defined.

(** C10. When the system call fails on a mapped handle, [munmap] returns
    that error and has still cleared the buffer, the pointer and the size:
    the next [munmap] does nothing and succeeds. *)
Theorem munmap_failure_clears (db : DB) (b : slice) (e1 : Errno) :
  dataref db = Some b -> e1 <> 0 ->
  let db' := fst (fst (munmap db e1)) in
  munmap db e1 = ((db', Some (SysErr e1)), [EvMunmap (Data b) (Len b)])
  /\ unmapped db'
  /\ file_fd db' = file_fd db /\ MmapFlags db' = MmapFlags db
  /\ forall e2, munmap db' e2 = ((db', None), []).
Proof.
  intros Hm Hne db'. unfold db', munmap, errno_err. rewrite Hm.
  apply Z.eqb_neq in Hne. rewrite Hne. cbn.
  repeat split; reflexivity.
Qed.

Lemma munmap_failure_clears_witness :
  munmap mapped_db EINVAL
  = ((fst (fst (munmap mapped_db EINVAL)), Some (SysErr EINVAL)),
     [EvMunmap 4096 32768])
  /\ unmapped (fst (fst (munmap mapped_db EINVAL))).
Proof.
  destruct (munmap_failure_clears mapped_db
              {| Data := 4096; Len := 32768; Cap := 32768 |} EINVAL)
    as (H1 & H2 & _).
  - reflexivity.
  - unfold EINVAL. lia.
  - split; [exact H1 | exact H2].
Defined.

Lemma Mmap_succeeds_iff (db : DB) (sz : Z) (k : mmap_answers) :
  Mmap_succeeds db sz k <-> 0 < sz /\ ans_mmap k = 0.
Proof.
  unfold Mmap_succeeds, syscall_Mmap.
  destruct (sz <=? 0) eqn:Hs.
  - apply Z.leb_le in Hs. cbn. split; [discriminate|lia].
  - apply Z.leb_gt in Hs. destruct (ans_mmap k =? 0) eqn:He; cbn.
    + apply Z.eqb_eq in He. tauto.
    + apply Z.eqb_neq in He. split; [discriminate|tauto].
Qed.

(** C7. When the mapping itself succeeded: an ENOSYS answer to the advice
    is ignored, [mmap] returns nil and the handle holds the new mapping;
    any other failure of the advice makes [mmap] return an error that names
    madvise, the handle being left as it was. *)
Theorem mmap_advice_errors (db : DB) (sz : Z) (k : mmap_answers) :
  Mmap_succeeds db sz k ->
  let b := {| Data := ans_addr k; Len := sz; Cap := sz |} in
  (ans_madvise k = ENOSYS ->
   fst (mmap db sz k)
   = Returns (set_mapping db (Some b) (Some (ans_addr k)) sz, None))
  /\ (ans_madvise k <> 0 -> ans_madvise k <> ENOSYS ->
      fst (mmap db sz k)
      = Returns (db, Some (Errorf "madvise: %s" (SysErr (ans_madvise k))))).
Proof.
  intros Hok b. apply Mmap_succeeds_iff in Hok. destruct Hok as [Hsz He].
  unfold mmap, syscall_Mmap, madvise.
  replace (sz <=? 0) with false by (symmetry; apply Z.leb_gt; exact Hsz).
  rewrite He. cbn [Z.eqb Len Data fst snd].
  replace (sz <=? 0) with false by (symmetry; apply Z.leb_gt; exact Hsz).
  split.
  - intros Hadv. rewrite Hadv. reflexivity.
  - intros H0 Hne. apply Z.eqb_neq in H0. rewrite H0. cbn [negb error_eqb].
    apply Z.eqb_neq in Hne. rewrite Hne. reflexivity.
Qed.

Lemma mmap_advice_errors_witness :
  fst (mmap closed_db 32768 {| ans_addr := 4096; ans_mmap := 0;
                               ans_madvise := ENOSYS |})
  = Returns (mapped_db, None)
  /\ fst (mmap closed_db 32768 {| ans_addr := 4096; ans_mmap := 0;
                                  ans_madvise := EINVAL |})
     = Returns (closed_db, Some (Errorf "madvise: %s" (SysErr EINVAL))).
Proof.
  split.
  - apply (proj1 (mmap_advice_errors closed_db 32768
                    {| ans_addr := 4096; ans_mmap := 0;
                       ans_madvise := ENOSYS |} eq_refl)).
    reflexivity.
  - apply (proj2 (mmap_advice_errors closed_db 32768
                    {| ans_addr := 4096; ans_mmap := 0;
                       ans_madvise := EINVAL |} eq_refl)).
    + unfold EINVAL. simpl. lia.
    + unfold EINVAL, ENOSYS. simpl. lia.
Defined.

End Mapping.

(** * Further properties of the page-id set *)

Local Open Scope nat_scope.

Lemma ascending_perm_unique (l1 : list N) :
  forall l2, StronglySorted N.le l1 -> StronglySorted N.le l2 ->
    Permutation l1 l2 -> l1 = l2.
Proof.
  induction l1 as [|x t IH]; intros l2 S1 S2 Hp.
  - apply Permutation_nil in Hp. now subst.
  - destruct l2 as [|y t2];
      [apply Permutation_sym, Permutation_nil in Hp; discriminate|].
    assert (Hxy : (x <= y)%N).
    { apply (head_le_all x t S1).
      apply (Permutation_in _ (Permutation_sym Hp)). now left. }
    assert (Hyx : (y <= x)%N).
    { apply (head_le_all y t2 S2). apply (Permutation_in _ Hp). now left. }
    assert (x = y) by lia. subst y.
    f_equal. apply IH.
    + now apply StronglySorted_inv in S1.
    + now apply StronglySorted_inv in S2.
    + now apply Permutation_cons_inv in Hp.
Qed.

(** X1. [merge] returns for every pair of inputs, sorted or not, and what it
    returns has [len a + len b] elements: those of [a] and of [b]. *)
Theorem merge_length (a b : list N) :
  exists c, Pgids.merge a b = Returns c
            /\ length c = length a + length b
            /\ Permutation c (a ++ b).
Proof.
  destruct (merge_is_mergepgids a b) as (c & Hc & Hp & _).
  exists c. split; [exact Hc|]. split; [|exact Hp].
  now rewrite (Permutation_length Hp), length_app.
Qed.

(** X2. On ascending inputs [merge] does not depend on the order of its
    operands. *)
Theorem merge_comm (a b : list N) :
  ascending a -> ascending b -> Pgids.merge a b = Pgids.merge b a.
Proof.
  intros Sa Sb.
  destruct (merge_is_mergepgids a b) as (c & Hc & Hp & Hs & _).
  destruct (merge_is_mergepgids b a) as (d & Hd & Hq & Ht & _).
  rewrite Hc, Hd. f_equal.
  apply ascending_perm_unique.
  - now apply ascending_strong, Hs.
  - now apply ascending_strong, Ht.
  - rewrite Hp, Hq. apply Permutation_app_comm.
Qed.

Lemma merge_comm_witness :
  Pgids.merge [1; 5; 5; 9]%N [2; 5; 12]%N
  = Pgids.merge [2; 5; 12]%N [1; 5; 5; 9]%N.
Proof.
  apply merge_comm; unfold ascending; repeat constructor; lia.
Defined.

(** X3. Merging three ascending sets gives the same set whichever two are
    merged first. *)
Theorem merge_assoc (a b c : list N) :
  ascending a -> ascending b -> ascending c ->
  exists ab bc r,
    Pgids.merge a b = Returns ab /\ Pgids.merge b c = Returns bc
    /\ Pgids.merge ab c = Returns r /\ Pgids.merge a bc = Returns r.
Proof.
  intros Sa Sb Sc.
  destruct (merge_is_mergepgids a b) as (ab & Hab & Pab & Aab & _).
  destruct (merge_is_mergepgids b c) as (bc & Hbc & Pbc & Abc & _).
  destruct (merge_is_mergepgids ab c) as (r & Hr & Pr & Ar & _).
  destruct (merge_is_mergepgids a bc) as (r' & Hr' & Pr' & Ar' & _).
  exists ab, bc, r. repeat split; try assumption.
  rewrite Hr'. f_equal.
  apply ascending_perm_unique.
  - apply ascending_strong, Ar'; auto.
  - apply ascending_strong, Ar; auto.
  - rewrite Pr', Pr, Pbc, Pab. now rewrite app_assoc.
Qed.

Lemma merge_assoc_witness :
  exists ab bc r,
    Pgids.merge [3; 8]%N [1; 8]%N = Returns ab
    /\ Pgids.merge [1; 8]%N [2; 9]%N = Returns bc
    /\ Pgids.merge ab [2; 9]%N = Returns r
    /\ Pgids.merge [3; 8]%N bc = Returns r.
Proof.
  apply merge_assoc; unfold ascending; repeat constructor; lia.
Defined.

(** X4. [mergepgids] writes into the first [len a + len b] cells of [dst]
    exactly what [merge] returns, whatever [dst] held before, and leaves
    the other cells of [dst] as they were. *)
Theorem mergepgids_writes_merge (dst a b : list N) :
  length a + length b <= length dst ->
  exists c,
    Pgids.merge a b = Returns c
    /\ Pgids.mergepgids dst a b
       = Returns (c ++ skipn (length a + length b) dst)
    /\ length (c ++ skipn (length a + length b) dst) = length dst.
Proof.
  intros Hfit.
  destruct (merge_is_mergepgids a b) as (c & Hc & Hp & _ & Hdst).
  exists c. split; [exact Hc|]. split; [now apply Hdst|].
  rewrite length_app, length_skipn, (Permutation_length Hp), length_app.
  lia.
Qed.

Lemma mergepgids_writes_merge_witness :
  exists c,
    Pgids.merge [4; 1]%N [3]%N = Returns c
    /\ Pgids.mergepgids [7; 7; 7; 7; 7]%N [4; 1]%N [3]%N
       = Returns (c ++ skipn (2 + 1) [7; 7; 7; 7; 7]%N)
    /\ length (c ++ skipn (2 + 1) [7; 7; 7; 7; 7]%N) = 5.
Proof.
  apply (mergepgids_writes_merge [7; 7; 7; 7; 7]%N [4; 1]%N [3]%N).
  simpl. lia.
Defined.

(** ** [pgids.Swap] *)

Lemma store_length (s : list N) : forall i v,
  length (Pgids.store s i v) = length s.
Proof.
  induction s as [|x t IH]; intros [|i] v; simpl; auto.
Qed.

Lemma nth_error_store (s : list N) : forall i v k,
  i < length s ->
  nth_error (Pgids.store s i v) k
  = if k =? i then Some v else nth_error s k.
Proof.
  induction s as [|x t IH]; intros i v k Hi; simpl in Hi; [lia|].
  destruct i as [|i]; destruct k as [|k]; simpl; auto.
  rewrite IH by lia. reflexivity.
Qed.

(** X5. With both indices in range [Swap] exchanges the two cells and leaves
    the others, and swapping again restores the slice; with an index out
    of range it panics. *)
Theorem Swap_exchanges (s : list N) (i j : nat) :
  (i < length s -> j < length s ->
   exists s',
     Pgids.Swap s i j = Returns s'
     /\ length s' = length s
     /\ nth_error s' i = nth_error s j
     /\ nth_error s' j = nth_error s i
     /\ (forall k, k <> i -> k <> j -> nth_error s' k = nth_error s k)
     /\ Pgids.Swap s' i j = Returns s)
  /\ (length s <= i \/ length s <= j ->
      Pgids.Swap s i j = Panics IndexOutOfRange).
Proof.
  split.
  - intros Hi Hj. unfold Pgids.Swap.
    destruct (nth_error s j) as [sj|] eqn:Ej;
      [|apply nth_error_None in Ej; lia].
    destruct (nth_error s i) as [si|] eqn:Ei;
      [|apply nth_error_None in Ei; lia].
    eexists. split; [reflexivity|].
    assert (Hlen : length (Pgids.store s i sj) = length s)
      by apply store_length.
    assert (Hi' : nth_error (Pgids.store (Pgids.store s i sj) j si) i
                  = Some sj).
    { rewrite !nth_error_store by lia. rewrite Nat.eqb_refl.
      destruct (i =? j) eqn:E; [|reflexivity].
      apply Nat.eqb_eq in E. subst j. congruence. }
    assert (Hj' : nth_error (Pgids.store (Pgids.store s i sj) j si) j
                  = Some si).
    { rewrite nth_error_store by lia. now rewrite Nat.eqb_refl. }
    split; [now rewrite !store_length|].
    split; [exact Hi'|]. split; [exact Hj'|].
    split.
    + intros k Hki Hkj. rewrite !nth_error_store by lia.
      apply Nat.eqb_neq in Hki, Hkj. now rewrite Hki, Hkj.
    + rewrite Hi', Hj'. f_equal. apply nth_error_ext. intros k.
      rewrite !nth_error_store by (rewrite ?store_length; lia).
      destruct (k =? j) eqn:Ekj.
      * apply Nat.eqb_eq in Ekj. now subst k.
      * destruct (k =? i) eqn:Eki; [|reflexivity].
        apply Nat.eqb_eq in Eki. now subst k.
  - intros Hout. unfold Pgids.Swap.
    destruct Hout as [H|H].
    + apply nth_error_None in H. rewrite H. now destruct (nth_error s j).
    + apply nth_error_None in H. now rewrite H.
Qed.

Lemma Swap_exchanges_witness :
  (exists s',
     Pgids.Swap [10; 20; 30]%N 0 2 = Returns s'
     /\ length s' = 3
     /\ nth_error s' 0 = Some 30%N
     /\ nth_error s' 2 = Some 10%N
     /\ (forall k, k <> 0 -> k <> 2 ->
         nth_error s' k = nth_error [10; 20; 30]%N k)
     /\ Pgids.Swap s' 0 2 = Returns [10; 20; 30]%N)
  /\ Pgids.Swap [10; 20; 30]%N 0 3 = Panics IndexOutOfRange.
Proof.
  split.
  - apply (proj1 (Swap_exchanges [10; 20; 30]%N 0 2)); simpl; lia.
  - apply (proj2 (Swap_exchanges [10; 20; 30]%N 0 3)). simpl. lia.
Defined.

(** ** [pgids.Less] with [merge] and [Swap] *)

(** X6. What [merge] returns for ascending inputs is sorted in the sense of the
    sort interface of [pgids]: no cell is [Less] than an earlier one. *)
Theorem merge_sorted_for_Less (a b : list N) :
  ascending a -> ascending b ->
  exists c,
    Pgids.merge a b = Returns c
    /\ Pgids.Len c = Pgids.Len a + Pgids.Len b
    /\ forall i j, i <= j -> j < Pgids.Len c ->
         Pgids.Less c j i = Returns false.
Proof.
  intros Sa Sb.
  destruct (merge_is_mergepgids a b) as (c & Hc & Hp & Hs & _).
  exists c. split; [exact Hc|]. unfold Pgids.Len.
  split; [now rewrite (Permutation_length Hp), length_app|].
  intros i j Hij Hj. unfold Pgids.Less.
  pose proof (sorted_nth_le c (proj1 (ascending_strong c) (Hs Sa Sb)) i j Hij Hj)
    as Hle.
  rewrite (nth_error_nth' c 0%N Hj).
  rewrite (nth_error_nth' c 0%N (Nat.le_lt_trans _ _ _ Hij Hj)).
  f_equal. apply N.ltb_ge. exact Hle.
Qed.

Lemma merge_sorted_for_Less_witness :
  exists c,
    Pgids.merge [2; 6]%N [1; 6; 7]%N = Returns c
    /\ Pgids.Len c = 2 + 3
    /\ forall i j, i <= j -> j < Pgids.Len c ->
         Pgids.Less c j i = Returns false.
Proof.
  apply (merge_sorted_for_Less [2; 6]%N [1; 6; 7]%N);
    unfold ascending; repeat constructor; lia.
Defined.

(** X7. [Less] is a strict order on the cells in range (never both ways, never
    a cell below itself) and panics out of range; after [Swap] of two cells
    it answers for them what it answered before with the indices
    exchanged, so swapping an inverted pair removes the inversion. *)
Theorem Less_after_Swap (s : list N) (i j : nat) :
  i < Pgids.Len s -> j < Pgids.Len s ->
  exists s' lij lji,
    Pgids.Swap s i j = Returns s'
    /\ Pgids.Less s i j = Returns lij /\ Pgids.Less s j i = Returns lji
    /\ Pgids.Less s' i j = Returns lji /\ Pgids.Less s' j i = Returns lij
    /\ (lij && lji = false)%bool
    /\ Pgids.Less s i i = Returns false
    /\ Pgids.Less s i (Pgids.Len s) = Panics IndexOutOfRange
    /\ Pgids.Less s (Pgids.Len s) j = Panics IndexOutOfRange.
Proof.
  unfold Pgids.Len. intros Hi Hj. unfold Pgids.Swap, Pgids.Less.
  destruct (nth_error s j) as [sj|] eqn:Ej;
    [|apply nth_error_None in Ej; lia].
  destruct (nth_error s i) as [si|] eqn:Ei;
    [|apply nth_error_None in Ei; lia].
  assert (Hend : nth_error s (length s) = None)
    by (apply nth_error_None; lia).
  rewrite Hend.
  exists (Pgids.store (Pgids.store s i sj) j si), (si <? sj)%N, (sj <? si)%N.
  assert (Hi' : nth_error (Pgids.store (Pgids.store s i sj) j si) i
                = Some sj).
  { rewrite !nth_error_store by (rewrite ?store_length; lia).
    rewrite Nat.eqb_refl.
    destruct (i =? j) eqn:E; [|reflexivity].
    apply Nat.eqb_eq in E. subst j. congruence. }
  assert (Hj' : nth_error (Pgids.store (Pgids.store s i sj) j si) j
                = Some si).
  { rewrite nth_error_store by (rewrite ?store_length; lia).
    now rewrite Nat.eqb_refl. }
  rewrite Hi', Hj'.
  repeat split.
  - destruct (si <? sj)%N eqn:E1; [|reflexivity].
    apply N.ltb_lt in E1. apply N.ltb_ge. lia.
  - now rewrite N.ltb_irrefl.
Qed.

Lemma Less_after_Swap_witness :
  exists s' lij lji,
    Pgids.Swap [30; 20; 10]%N 0 2 = Returns s'
    /\ Pgids.Less [30; 20; 10]%N 0 2 = Returns lij
    /\ Pgids.Less [30; 20; 10]%N 2 0 = Returns lji
    /\ Pgids.Less s' 0 2 = Returns lji /\ Pgids.Less s' 2 0 = Returns lij
    /\ (lij && lji = false)%bool
    /\ Pgids.Less [30; 20; 10]%N 0 0 = Returns false
    /\ Pgids.Less [30; 20; 10]%N 0 3 = Panics IndexOutOfRange
    /\ Pgids.Less [30; 20; 10]%N 3 2 = Panics IndexOutOfRange.
Proof.
  apply (Less_after_Swap [30; 20; 10]%N 0 2); unfold Pgids.Len; simpl; lia.
Defined.

(** * Further properties of the lock loop *)

Local Open Scope Z_scope.

Section LockLoop.
Import Unix.

Variable retry : Z.

(** X8. While the call is still waiting after the attempts [pre], an attempt
    that the kernel grants ends it: [flock] returns nil, and the granted
    attempt is the last thing it does. *)
Theorem flock_granted (db : DB) (excl : bool) (timeout : Z)
  (pre : list attempt) (a : attempt) (post : list attempt) :
  fst (flock retry db excl timeout pre) = OutOfFuel ->
  att_errno a = 0 ->
  flock retry db excl timeout (pre ++ a :: post)
  = (Returns None,
     snd (flock retry db excl timeout pre)
     ++ [EvFlock (file_fd db) (lock_flag excl)]).
Proof.
  intros Hw H0. rewrite flock_waiting by exact Hw.
  cbn [flock_loop]. unfold errno_err. rewrite H0. reflexivity.
Qed.

(** X9. With a zero timeout there is no deadline: as long as the attempts meet
    EWOULDBLOCK the call keeps waiting, sleeping one retry interval after
    each attempt, and it never reads the clock. *)
Theorem flock_no_deadline (db : DB) (excl : bool) (script : list attempt) :
  Forall (fun x => att_errno x = EWOULDBLOCK) script ->
  flock retry db excl 0 script
  = (OutOfFuel,
     flat_map (fun _ => [EvFlock (file_fd db) (lock_flag excl);
                         EvSleep retry]) script).
Proof.
  intros H. unfold flock. fold (lock_flag excl). cbn [Z.eqb negb app].
  induction H as [|x script Hx _ IH].
  - reflexivity.
  - cbn [flock_loop flat_map]. rewrite Hx. cbn.
    destruct (flock_loop retry (file_fd db) (lock_flag excl) 0 script)
      as [r tr].
    injection IH as -> ->. reflexivity.
Qed.

(** X10. Whatever the environment answers, [flock] only ever asks for the lock
    without blocking, on the descriptor of the handle and in the mode it
    was called with, reads the clock, or sleeps one retry interval; it
    performs no other system call. *)
Theorem flock_only_polls (db : DB) (excl : bool) (timeout : Z)
  (script : list attempt) :
  Forall (lock_event retry (file_fd db) excl)
         (snd (flock retry db excl timeout script)).
Proof.
  assert (Hflock : lock_event retry (file_fd db) excl
                     (EvFlock (file_fd db) (lock_flag excl))).
  { cbn. destruct excl; repeat split; reflexivity. }
  unfold flock. fold (lock_flag excl).
  assert (Hloop : Forall (lock_event retry (file_fd db) excl)
            (snd (flock_loop retry (file_fd db) (lock_flag excl) timeout
                    script))).
  { induction script as [|x script IH]; [constructor|].
    cbn [flock_loop].
    destruct (errno_err (att_errno x)) as [e|];
      [|cbn [snd]; apply Forall_cons; [exact Hflock|constructor]].
    destruct (negb (error_eqb e (SysErr EWOULDBLOCK)));
      [cbn [snd]; apply Forall_cons; [exact Hflock|constructor]|].
    destruct (flock_loop retry (file_fd db) (lock_flag excl) timeout script)
      as [r tr]. cbn [snd] in IH.
    destruct (negb (timeout =? 0)).
    - destruct (att_since x >? wrap64 (timeout - retry)); cbn [snd].
      + apply Forall_cons; [exact Hflock|].
        apply Forall_cons; [exact I|constructor].
      + apply Forall_cons; [exact Hflock|].
        apply Forall_cons; [exact I|].
        apply Forall_cons; [reflexivity|exact IH].
    - cbn [snd]. apply Forall_cons; [exact Hflock|].
      apply Forall_cons; [reflexivity|exact IH]. }
  destruct (flock_loop retry (file_fd db) (lock_flag excl) timeout script)
    as [r tr]. cbn [snd] in *.
  apply Forall_app. split; [|exact Hloop].
  destruct (negb (timeout =? 0)); [apply Forall_cons; [exact I|]|];
    constructor.
Qed.

Lemma flock_loop_bounded (fd flag timeout : Z) :
  timeout <> 0 -> int64_range (timeout - retry) ->
  forall (script : list attempt) (prev : Z),
    script <> [] ->
    Forall (fun x => att_errno x = EWOULDBLOCK) script ->
    ticking retry prev script ->
    timeout - prev < retry * Z.of_nat (length script) ->
    fst (flock_loop retry fd flag timeout script)
    = Returns (Some ErrTimeout).
Proof.
  intros Ht Hr. apply Z.eqb_neq in Ht.
  induction script as [|x script IH]; intros prev Hne Hall Htick Hlen;
    [congruence|].
  apply Forall_cons_iff in Hall. destruct Hall as [Hx Hall].
  cbn [ticking] in Htick. destruct Htick as [Hprev Htick].
  cbn [flock_loop]. rewrite Hx. cbn. rewrite Ht. cbn [negb].
  rewrite wrap64_small by exact Hr.
  destruct (att_since x >? timeout - retry) eqn:Hlate; [reflexivity|].
  rewrite Z.gtb_ltb in Hlate. apply Z.ltb_ge in Hlate.
  assert (Hscript : script <> []).
  { intros ->. cbn [length] in Hlen. lia. }
  specialize (IH (att_since x + retry) Hscript Hall Htick).
  destruct (flock_loop retry fd flag timeout script) as [r tr].
  cbn [fst] in *. apply IH.
  cbn [length] in Hlen. rewrite Nat2Z.inj_succ in Hlen. lia.
Qed.

(** X11. The wait is bounded.  With a positive timeout, when the clock does not
    go back and each sleep lasts at least the retry interval, a call whose
    attempts all meet EWOULDBLOCK has returned [ErrTimeout] by the time it
    has made more than [timeout / retry] attempts. *)
Theorem flock_bounded_wait (db : DB) (excl : bool) (timeout : Z)
  (script : list attempt) :
  0 < retry -> 0 < timeout -> int64_range (timeout - retry) ->
  Forall (fun x => att_errno x = EWOULDBLOCK) script ->
  ticking retry 0 script ->
  timeout < retry * Z.of_nat (length script) ->
  fst (flock retry db excl timeout script) = Returns (Some ErrTimeout).
Proof.
  intros Hretry Htimeout Hr Hall Htick Hlen.
  unfold flock. fold (lock_flag excl).
  pose proof (flock_loop_bounded (file_fd db) (lock_flag excl) timeout
                ltac:(lia) Hr script 0) as H.
  destruct (flock_loop retry (file_fd db) (lock_flag excl) timeout script)
    as [r tr].
  cbn [fst] in *. apply H; auto; [|lia].
  intros ->. cbn [length] in Hlen. lia.
Qed.

End LockLoop.

Lemma flock_granted_witness :
  Unix.flock 50 closed_db false 0
    ({| Unix.att_errno := 11; Unix.att_since := 0 |}
       :: {| Unix.att_errno := 0; Unix.att_since := 0 |} :: nil)
  = (Returns None,
     [Unix.EvFlock 3 5; Unix.EvSleep 50; Unix.EvFlock 3 5]).
Proof.
  apply (flock_granted 50 closed_db false 0
           [{| Unix.att_errno := 11; Unix.att_since := 0 |}]
           {| Unix.att_errno := 0; Unix.att_since := 0 |} []).
  - reflexivity.
  - reflexivity.
Defined.

Lemma flock_no_deadline_witness :
  Unix.flock 50 closed_db true 0
    ({| Unix.att_errno := 11; Unix.att_since := 7 |}
       :: {| Unix.att_errno := 11; Unix.att_since := 9 |} :: nil)
  = (OutOfFuel,
     [Unix.EvFlock 3 6; Unix.EvSleep 50; Unix.EvFlock 3 6; Unix.EvSleep 50]).
Proof.
  apply (flock_no_deadline 50 closed_db true
           [{| Unix.att_errno := 11; Unix.att_since := 7 |};
            {| Unix.att_errno := 11; Unix.att_since := 9 |}]).
  repeat constructor.
Defined.

Lemma flock_bounded_wait_witness :
  fst (Unix.flock 50 closed_db true 120
         ({| Unix.att_errno := 11; Unix.att_since := 1 |}
            :: {| Unix.att_errno := 11; Unix.att_since := 52 |}
            :: {| Unix.att_errno := 11; Unix.att_since := 103 |} :: nil))
  = Returns (Some Unix.ErrTimeout).
Proof.
  apply flock_bounded_wait.
  - lia.
  - lia.
  - unfold int64_range. lia.
  - repeat constructor.
  - simpl. lia.
  - simpl. lia.
Defined.

(** * Further properties of mapping *)

Section MappingMore.
Import Mem Unix.

(** X12. When [syscall.Mmap] fails, [mmap] returns its error as it is, leaves
    the handle as it was and gives no advice: a size that is not positive
    is refused with EINVAL before any system call, and a failure of the
    system call is returned after that one call. *)
Theorem mmap_syscall_failure (db : DB) (sz : Z) (k : mmap_answers) :
  (sz <= 0 -> mmap db sz k = (Returns (db, Some (SysErr EINVAL)), []))
  /\ (0 < sz -> ans_mmap k <> 0 ->
      mmap db sz k
      = (Returns (db, Some (SysErr (ans_mmap k))),
         [EvMmap (file_fd db) 0 sz PROT_READ
                 (Z.lor MAP_SHARED (MmapFlags db))])).
Proof.
  unfold mmap, syscall_Mmap. split.
  - intros H. apply Z.leb_le in H. now rewrite H.
  - intros H He. apply Z.leb_gt in H. rewrite H.
    apply Z.eqb_neq in He. now rewrite He.
Qed.

Lemma mmap_syscall_failure_witness :
  mmap closed_db 0 {| ans_addr := 4096; ans_mmap := 0; ans_madvise := 0 |}
  = (Returns (closed_db, Some (SysErr EINVAL)), [])
  /\ mmap closed_db 32768
          {| ans_addr := 0; ans_mmap := 12; ans_madvise := 0 |}
     = (Returns (closed_db, Some (SysErr 12)), [EvMmap 3 0 32768 1 1]).
Proof.
  split.
  - apply (proj1 (mmap_syscall_failure closed_db 0
                    {| ans_addr := 4096; ans_mmap := 0;
                       ans_madvise := 0 |})). lia.
  - apply (proj2 (mmap_syscall_failure closed_db 32768
                    {| ans_addr := 0; ans_mmap := 12;
                       ans_madvise := 0 |})); simpl; lia.
Defined.

(** X13. [mmap] never panics: the slice that [syscall.Mmap] returns without
    error is never empty, so taking the address of its first byte is
    always in range. *)
Theorem mmap_never_panics (db : DB) (sz : Z) (k : mmap_answers) :
  exists db' err, fst (mmap db sz k) = Returns (db', err).
Proof.
  unfold mmap, syscall_Mmap, madvise.
  destruct (sz <=? 0) eqn:Hs; [cbn [fst]; eauto|].
  destruct (ans_mmap k =? 0); [|cbn [fst]; eauto].
  cbn [Len Data]. rewrite Hs.
  destruct (negb (ans_madvise k =? 0)); [|cbn [fst]; eauto].
  destruct (negb (error_eqb (SysErr (ans_madvise k)) (SysErr ENOSYS)));
    cbn [fst]; eauto.
Qed.

(** X14. A successful [mmap] asks for a read-only shared mapping of the first
    [sz] bytes of the file, advises random access on the whole of it, and
    stores the region, its address and [sz] in the handle. *)
Theorem mmap_success (db : DB) (sz : Z) (k : mmap_answers) :
  Mmap_succeeds db sz k ->
  ans_madvise k = 0 \/ ans_madvise k = ENOSYS ->
  mmap db sz k
  = (Returns (set_mapping db
                (Some {| Data := ans_addr k; Len := sz; Cap := sz |})
                (Some (ans_addr k)) sz, None),
     [EvMmap (file_fd db) 0 sz PROT_READ (Z.lor MAP_SHARED (MmapFlags db));
      EvMadvise (ans_addr k) sz MADV_RANDOM]).
Proof.
  intros Hok Hadv. apply Mmap_succeeds_iff in Hok. destruct Hok as [Hsz He].
  unfold mmap, syscall_Mmap, madvise.
  replace (sz <=? 0) with false by (symmetry; apply Z.leb_gt; exact Hsz).
  rewrite He. cbn [Z.eqb Len Data].
  replace (sz <=? 0) with false by (symmetry; apply Z.leb_gt; exact Hsz).
  destruct Hadv as [-> | ->]; reflexivity.
Qed.

Lemma mmap_success_witness :
  mmap closed_db 32768 {| ans_addr := 4096; ans_mmap := 0; ans_madvise := 0 |}
  = (Returns (mapped_db, None),
     [EvMmap 3 0 32768 1 1; EvMadvise 4096 32768 1]).
Proof.
  apply (mmap_success closed_db 32768
           {| ans_addr := 4096; ans_mmap := 0; ans_madvise := 0 |}).
  - reflexivity.
  - left. reflexivity.
Defined.

(** X15. Mapping an unmapped handle and unmapping it again gives back the
    handle as it was, and the unmap releases exactly the region that was
    mapped. *)
Theorem mmap_munmap_roundtrip (db : DB) (sz : Z) (k : mmap_answers) :
  unmapped db -> Mmap_succeeds db sz k ->
  ans_madvise k = 0 \/ ans_madvise k = ENOSYS ->
  exists db1,
    fst (mmap db sz k) = Returns (db1, None)
    /\ munmap db1 0 = ((db, None), [EvMunmap (ans_addr k) sz]).
Proof.
  intros (Hr & Hd & Hs) Hok Hadv.
  apply Mmap_succeeds_iff in Hok. destruct Hok as [Hsz He].
  unfold mmap, syscall_Mmap, madvise.
  replace (sz <=? 0) with false by (symmetry; apply Z.leb_gt; exact Hsz).
  rewrite He. cbn [Z.eqb Len Data].
  replace (sz <=? 0) with false by (symmetry; apply Z.leb_gt; exact Hsz).
  destruct db as [fd fl ref dat dsz]. cbn in Hr, Hd, Hs. subst.
  destruct Hadv as [-> | ->]; (eexists; split; [reflexivity|]);
    reflexivity.
Qed.

Lemma mmap_munmap_roundtrip_witness :
  exists db1,
    fst (mmap closed_db 32768
           {| ans_addr := 4096; ans_mmap := 0; ans_madvise := ENOSYS |})
    = Returns (db1, None)
    /\ munmap db1 0 = ((closed_db, None), [EvMunmap 4096 32768]).
Proof.
  apply (mmap_munmap_roundtrip closed_db 32768
           {| ans_addr := 4096; ans_mmap := 0; ans_madvise := ENOSYS |}).
  - repeat split.
  - reflexivity.
  - right. reflexivity.
Defined.

(** X16. [mmap] never unmaps anything: neither the mapping that the handle
    already holds when it is called again, nor the region it has just
    mapped when the advice then fails. *)
Theorem mmap_never_unmaps (db : DB) (sz : Z) (k : mmap_answers) :
  never_unmaps (snd (mmap db sz k)).
Proof.
  unfold never_unmaps, mmap, syscall_Mmap, madvise.
  destruct (sz <=? 0) eqn:Hs; [constructor|].
  destruct (ans_mmap k =? 0); [|repeat constructor].
  cbn [Len Data]. rewrite Hs.
  destruct (negb (ans_madvise k =? 0)); [|repeat constructor].
  destruct (negb (error_eqb (SysErr (ans_madvise k)) (SysErr ENOSYS)));
    repeat constructor.
Qed.

(** X17. When the advice fails with an error other than ENOSYS the region has
    been mapped, the handle does not record it, and no system call
    releases it. *)
Theorem mmap_advice_failure_trace (db : DB) (sz : Z) (k : mmap_answers) :
  Mmap_succeeds db sz k ->
  ans_madvise k <> 0 -> ans_madvise k <> ENOSYS ->
  mmap db sz k
  = (Returns (db, Some (Errorf "madvise: %s" (SysErr (ans_madvise k)))),
     [EvMmap (file_fd db) 0 sz PROT_READ (Z.lor MAP_SHARED (MmapFlags db));
      EvMadvise (ans_addr k) sz MADV_RANDOM]).
Proof.
  intros Hok H0 Hne. apply Mmap_succeeds_iff in Hok.
  destruct Hok as [Hsz He].
  unfold mmap, syscall_Mmap, madvise.
  replace (sz <=? 0) with false by (symmetry; apply Z.leb_gt; exact Hsz).
  rewrite He. cbn [Z.eqb Len Data].
  replace (sz <=? 0) with false by (symmetry; apply Z.leb_gt; exact Hsz).
  apply Z.eqb_neq in H0. rewrite H0. cbn [negb error_eqb].
  apply Z.eqb_neq in Hne. rewrite Hne. reflexivity.
Qed.

Lemma mmap_advice_failure_trace_witness :
  mmap closed_db 32768
       {| ans_addr := 4096; ans_mmap := 0; ans_madvise := EINVAL |}
  = (Returns (closed_db, Some (Errorf "madvise: %s" (SysErr EINVAL))),
     [EvMmap 3 0 32768 1 1; EvMadvise 4096 32768 1]).
Proof.
  apply (mmap_advice_failure_trace closed_db 32768
           {| ans_addr := 4096; ans_mmap := 0; ans_madvise := EINVAL |}).
  - reflexivity.
  - unfold EINVAL. simpl. lia.
  - unfold EINVAL, ENOSYS. simpl. lia.
Defined.

(** X18. Whatever the handle held and whatever the system answers, the handle
    holds no buffer after [munmap]; the system call is made only for a
    mapped handle, once, on the stored buffer; and an error is returned
    only if that call was made and failed. *)
Theorem munmap_always_unmaps (db : DB) (e1 : Errno) :
  dataref (fst (fst (munmap db e1))) = None
  /\ file_fd (fst (fst (munmap db e1))) = file_fd db
  /\ snd (munmap db e1)
     = match dataref db with
       | Some b => [EvMunmap (Data b) (Len b)]
       | None => []
       end
  /\ (snd (fst (munmap db e1)) <> None ->
      dataref db <> None /\ e1 <> 0
      /\ snd (fst (munmap db e1)) = Some (SysErr e1)).
Proof.
  unfold munmap, errno_err.
  destruct (dataref db) as [b|] eqn:Hd; cbn [fst snd set_mapping dataref
                                             file_fd].
  - split; [reflexivity|]. split; [reflexivity|]. split; [reflexivity|].
    intros H. destruct (e1 =? 0) eqn:E; [now elim H|].
    apply Z.eqb_neq in E. repeat split; [discriminate | exact E].
  - split; [exact Hd|]. split; [reflexivity|]. split; [reflexivity|].
    intros H. now elim H.
Qed.

End MappingMore.

(** * Further properties of pages *)

Section PagesMore.
Import Mem Page.

(** X19. The key of a branch element is the [ksize] bytes that start [pos]
    bytes after the element, as for a leaf element; the two fields are the
    first two words of the element. *)
Theorem branch_key_range (m : mem) (n : Z) :
  let pos := value_of (load32 n) m in
  let ksize := value_of (load32 (n + 4)) m in
  let k := value_of (branch_key n) m in
  Data k = n + pos /\ Len k = ksize /\ Cap k = ksize
  /\ slice_bytes m k = bytes_at m (n + pos) ksize
  /\ Z.of_nat (length (slice_bytes m k)) = ksize.
Proof.
  intros pos ksize k.
  pose proof (load32_range n m) as Hp. fold pos in Hp.
  pose proof (load32_range (n + 4) m) as Hk. fold ksize in Hk.
  assert (Ek : k = {| Data := n + pos; Len := ksize; Cap := ksize |}).
  { unfold k, branch_key, branch_pos, branch_ksize.
    rewrite !value_bind, value_ret. fold pos ksize.
    rewrite wrap64_small by lia. unfold unsafeByteSlice, unsafeAdd.
    f_equal; lia. }
  rewrite Ek. cbn [Data Len Cap]. rewrite slice_bytes_at.
  rewrite bytes_at_length by lia. repeat split; reflexivity.
Qed.

(** X20. The accessors read nothing but the fields they need: [key] the [pos]
    and [ksize] words of the leaf element, [value] those and [vsize], and
    the branch [key] the first two words of the branch element; none
    reads a byte outside the 16 bytes of the element, and none reads the
    key or value bytes themselves. *)
Theorem accessors_read_their_fields (m : mem) (n : Z) :
  Forall (fun a => n + 4 <= a < n + 12) (reads_of (key n) m)
  /\ Forall (fun a => n + 4 <= a < n + 16) (reads_of (value n) m)
  /\ Forall (fun a => n <= a < n + 8) (reads_of (branch_key n) m)
  /\ Forall (in_element n)
            (reads_of (key n) m ++ reads_of (value n) m
             ++ reads_of (branch_key n) m).
Proof.
  assert (Hk : Forall (fun a => n + 4 <= a < n + 12) (reads_of (key n) m)).
  { unfold key, leaf_pos, leaf_ksize.
    rewrite !reads_bind, !reads_load32, reads_ret.
    repeat (apply Forall_cons; [lia|]). constructor. }
  assert (Hv : Forall (fun a => n + 4 <= a < n + 16) (reads_of (value n) m)).
  { unfold value, leaf_pos, leaf_ksize, leaf_vsize.
    rewrite !reads_bind, !reads_load32, reads_ret.
    repeat (apply Forall_cons; [lia|]). constructor. }
  assert (Hb : Forall (fun a => n <= a < n + 8) (reads_of (branch_key n) m)).
  { unfold branch_key, branch_pos, branch_ksize.
    rewrite !reads_bind, !reads_load32, reads_ret.
    repeat (apply Forall_cons; [lia|]). constructor. }
  repeat split; try assumption.
  rewrite !Forall_app. unfold in_element, leafPageElementSize.
  repeat split; eapply Forall_impl; try eassumption; cbv beta; intros; lia.
Qed.

(** X21. On a page with elements the enumerations return [count] elements
    starting right after the 16-byte header, where the meta section of a
    meta page also starts; element [i] of the enumeration is the one that
    [leafPageElement i] or [branchPageElement i] points to; and only
    header bytes are read. *)
Theorem elements_of_page (m : mem) (p : Z) :
  value_of (page_count p) m <> 0 ->
  let c := value_of (page_count p) m in
  let l := value_of (leafPageElements p) m in
  let b := value_of (branchPageElements p) m in
  l = {| Data := p + 16; Len := c; Cap := c |}
  /\ b = l
  /\ 0 < c < 2 ^ 16
  /\ meta p = Data l
  /\ (forall i, leafPageElement p i = Data l + i * leafPageElementSize)
  /\ (forall i, branchPageElement p i = Data b + i * branchPageElementSize)
  /\ Forall (in_header p) (reads_of (leafPageElements p) m)
  /\ Forall (in_header p) (reads_of (branchPageElements p) m).
Proof.
  intros Hc c l b.
  pose proof (load16_range (p + 10) m) as Hr. fold (page_count p) in Hr.
  fold c in Hr, Hc.
  assert (El : l = {| Data := p + 16; Len := c; Cap := c |}).
  { unfold l, leafPageElements. rewrite value_bind. fold c.
    apply Z.eqb_neq in Hc. rewrite Hc. rewrite value_bind, value_ret.
    reflexivity. }
  assert (Eb : b = l).
  { rewrite El. unfold b, branchPageElements. rewrite value_bind. fold c.
    apply Z.eqb_neq in Hc. rewrite Hc. rewrite value_bind, value_ret.
    reflexivity. }
  assert (Hreads : Forall (in_header p)
                     (reads_of (page_count p) m
                      ++ reads_of (page_count p) m ++ [])).
  { unfold page_count. rewrite reads_load16.
    unfold in_header, pageHeaderSize.
    repeat (apply Forall_cons; [lia|]). constructor. }
  split; [exact El|]. split; [exact Eb|]. split; [lia|].
  rewrite Eb, El. cbn [Data].
  split; [reflexivity|].
  split; [intros i; unfold leafPageElement, unsafeIndex, pageHeaderSize; lia|].
  split; [intros i; unfold branchPageElement, unsafeIndex, pageHeaderSize;
          lia|].
  apply Z.eqb_neq in Hc.
  split.
  - unfold leafPageElements. rewrite reads_bind. fold c. rewrite Hc.
    rewrite reads_bind, reads_ret. exact Hreads.
  - unfold branchPageElements. rewrite reads_bind. fold c. rewrite Hc.
    rewrite reads_bind, reads_ret. exact Hreads.
Qed.

Lemma elements_of_page_witness :
  value_of (leafPageElements 4096) (one_byte 4106 Byte.x02)
  = {| Data := 4096 + 16; Len := 2; Cap := 2 |}
  /\ leafPageElement 4096 1 = 4096 + 16 + 16.
Proof.
  destruct (elements_of_page (one_byte 4106 Byte.x02) 4096)
    as (Hl & _ & _ & _ & Hi & _).
  - vm_compute. discriminate.
  - split; [exact Hl|]. rewrite (Hi 1). reflexivity.
Defined.

(** X22. [typ] reads the two bytes of the [flags] field and nothing else. *)
Theorem typ_reads_flags_only (m : mem) (p : Z) :
  Forall (fun a => a = p + 8 \/ a = p + 8 + 1) (reads_of (typ p) m)
  /\ Forall (in_header p) (reads_of (typ p) m).
Proof.
  assert (H : Forall (fun a => a = p + 8 \/ a = p + 8 + 1)
                (reads_of (typ p) m)).
  { unfold typ, page_flags.
    repeat (rewrite reads_bind, reads_load16; apply Forall_app; split;
            [repeat (apply Forall_cons; [auto|]); constructor|];
            try match goal with
            | |- context [if ?c then _ else _] => destruct c
            end;
            rewrite ?reads_ret; try apply Forall_nil). }
  split; [exact H|].
  eapply Forall_impl; [|exact H].
  unfold in_header, pageHeaderSize. cbv beta. intros a [->| ->]; lia.
Qed.

Lemma append_angle_inj (s1 : string) :
  forall s2, (s1 ++ ">")%string = (s2 ++ ">")%string -> s1 = s2.
Proof.
  induction s1 as [|c s1 IH]; intros [|d s2] H; cbn in H.
  - reflexivity.
  - injection H as _ H. destruct s2; discriminate H.
  - injection H as _ H. destruct s1; discriminate H.
  - injection H as -> H. f_equal. now apply IH.
Qed.

(** X23. Two pages of unknown type have the same [typ] string only if they
    have the same flags: the string identifies the raw flags. *)
Theorem typ_unknown_identifies_flags (m m' : mem) (p p' : Z) :
  let f := value_of (page_flags p) m in
  let f' := value_of (page_flags p') m' in
  Z.land f 0x17 = 0 -> Z.land f' 0x17 = 0 ->
  value_of (typ p) m = value_of (typ p') m' -> f = f'.
Proof.
  intros f f' Hf Hf' Heq.
  assert (Hbits : forall g, 0 <= g -> Z.land g 0x17 = 0 ->
            Z.land g 0x01 = 0 /\ Z.land g 0x02 = 0
            /\ Z.land g 0x04 = 0 /\ Z.land g 0x10 = 0).
  { intros g Hg H.
    assert (Hb : forall i, Z.testbit 0x17 i = true ->
                   Z.testbit g i = false).
    { intros i Hi. pose proof (Z.land_spec g 0x17 i) as Hs.
      rewrite H, Z.bits_0, Hi, andb_true_r in Hs. now symmetry. }
    repeat split; apply Z.bits_inj'; intros i Hi;
      rewrite Z.land_spec, Z.bits_0;
      match goal with
      | |- Z.testbit g i && Z.testbit ?c i = false =>
          destruct (Z.testbit c i) eqn:E; [|apply andb_false_r];
          rewrite andb_true_r; apply Hb;
          assert (Ei : i = 0 \/ i = 1 \/ i = 2 \/ i = 3 \/ i = 4 \/ 5 <= i)
            by lia;
          destruct Ei as [->|[->|[->|[->|[->|Ei]]]]];
          try reflexivity; try discriminate E;
          exfalso;
          rewrite (Z.bits_above_log2 c i) in E by (simpl; lia);
          discriminate E
      end. }
  pose proof (load16_range (p + 8) m) as Hr. fold (page_flags p) in Hr.
  pose proof (load16_range (p' + 8) m') as Hr'.
  fold (page_flags p') in Hr'. fold f in Hr. fold f' in Hr'.
  destruct (Hbits f ltac:(lia) Hf) as (H1 & H2 & H3 & H4).
  destruct (Hbits f' ltac:(lia) Hf') as (H1' & H2' & H3' & H4').
  rewrite (typ_cases m p), (typ_cases m' p') in Heq. fold f f' in Heq.
  unfold branchPageFlag, leafPageFlag, metaPageFlag, freelistPageFlag
    in Heq.
  rewrite H1, H2, H3, H4, H1', H2', H3', H4' in Heq.
  cbn [Z.eqb negb] in Heq.
  assert (E : fmt_02x f = fmt_02x f').
  { apply append_angle_inj.
    cbn [append] in Heq. now repeat injection Heq as Heq. }
  pose proof (hex_roundtrips_uint16 f Hr) as Pf.
  pose proof (hex_roundtrips_uint16 f' Hr') as Pf'.
  rewrite E in Pf. congruence.
Qed.

Lemma typ_unknown_identifies_flags_witness :
  value_of (typ 0) (one_byte 8 Byte.x08) = "unknown<08>"%string
  /\ value_of (page_flags 0) (one_byte 8 Byte.x08)
     = value_of (page_flags 4096) (one_byte 4104 Byte.x08).
Proof.
  split; [reflexivity|].
  apply (typ_unknown_identifies_flags (one_byte 8 Byte.x08)
           (one_byte 4104 Byte.x08) 0 4096); reflexivity.
Defined.

End PagesMore.
